(** * The davstack store: [createStore], its extension registry and its
      locally scoped instances

    A shallow embedding of [packages/store/src/createStore.tsx].  The state
    tree is a JavaScript value; the zustand instances behind the store are
    cells of an explicit heap; the object the factory returns is a finite map
    from property names to members.  The factory is modelled twice: first
    for builders that only return members, then, in the module [Live], for
    builders that also write to the store object they are given and call
    store methods while they are applied. *)

From stdpp Require Import gmap strings list fin_maps pretty.
From Stdlib Require Import ZArith.

Set Warnings "-register-all,-clear-no-such-hyp".
Set Default Proof Using "Type".

(** ** State values *)

(** The values a state tree is made of: primitives, arrays and objects.
    A number [VNum n] is the double whose value is the integer [n]: the
    numbers of the model are the finite doubles without a fractional part,
    and arithmetic on them rounds as doubles do (see [jsAdd] below).  A
    string is the sequence of its UTF-16 code units, each held in one
    [ascii]: the strings of the model are those whose code units are below
    256.  An object is the sequence of its property definitions, in the
    order they were made: as in an object literal, a later definition of a
    name overrides an earlier one. *)
Inductive Value : Type :=
| VUndefined
| VNull
| VBool (b : bool)
| VNum (n : Z)
| VStr (s : string)
| VArr (items : list Value)
| VObj (fields : list (string * Value)).

(** [isObject]: [value instanceof Object && !(value instanceof Array)]. *)
Definition isObject (value : Value) : bool :=
  match value with
  | VObj _ => true
  | VArr _ => false
  | VUndefined | VNull | VBool _ | VNum _ | VStr _ => false
  end.

(** Property lookup in a sequence of definitions: the last one wins. *)
Fixpoint lookupLast {A : Type} (k : string) (l : list (string * A)) : option A :=
  match l with
  | [] => None
  | (k', a) :: l' =>
      match lookupLast k l' with
      | Some b => Some b
      | None => if decide (k = k') then Some a else None
      end
  end.

Definition getProp (k : string) (v : Value) : option Value :=
  match v with
  | VObj fields => lookupLast k fields
  | _ => None
  end.

(** The own enumerable properties that a spread [{...v}] or
    [Object.assign(_, v)] copies: the fields of an object, the indexed
    elements of an array, the indexed code units of a string, and nothing
    for the other primitives. *)
Definition indexed (l : list Value) : list (string * Value) :=
  imap (fun (i : nat) (x : Value) => (pretty i, x)) l.

(** The code units of a string, each as a string of length one. *)
Definition chars (s : string) : list Value :=
  (fun c => VStr (String c EmptyString)) <$> String.list_ascii_of_string s.

Definition ownProps (v : Value) : list (string * Value) :=
  match v with
  | VObj fields => fields
  | VArr items => indexed items
  | VStr s => indexed (chars s)
  | VUndefined | VNull | VBool _ | VNum _ => []
  end.

(** [{...a, ...b}] *)
Definition spread2 (a b : Value) : Value :=
  VObj (ownProps a ++ ownProps b).

(** [draft[k] = v]: the property is rewritten where it stands, or added at
    the end. *)
Definition setProp (k : string) (v : Value) (fields : list (string * Value))
  : list (string * Value) :=
  match lookupLast k fields with
  | Some _ => (fun kv => if decide (kv.1 = k) then (k, v) else kv) <$> fields
  | None => fields ++ [(k, v)]
  end.

Definition assignProps (fields source : list (string * Value))
  : list (string * Value) :=
  foldl (fun acc kv => setProp kv.1 kv.2 acc) fields source.

(** [Object.assign(target, source)] on a draft of the state.  On [null] and
    [undefined] it throws a TypeError; the other targets that are not objects
    (wrappers of primitives, arrays) are not drafts of an object state and
    are left out of the model: [None] in both cases. *)
Definition Object_assign (target source : Value) : option Value :=
  match target with
  | VObj fields => Some (VObj (assignProps fields (ownProps source)))
  | _ => None
  end.

(** The value at a path of property names.  Only objects have paths below
    them; arrays and primitives are leaves. *)
Fixpoint pathValue (v : Value) (path : list string) : option Value :=
  match path with
  | [] => Some v
  | k :: path' =>
      match getProp k v with
      | Some child => pathValue child path'
      | None => None
      end
  end.

(** Writing [v] at a path of a draft; [None] when an object on the way is
    missing (a TypeError in the recipe). *)
Fixpoint setPath (root : Value) (path : list string) (v : Value) : option Value :=
  match path with
  | [] => Some v
  | k :: path' =>
      match root with
      | VObj fields =>
          match setPath (default VUndefined (lookupLast k fields)) path' v with
          | Some child => Some (VObj (setProp k child fields))
          | None => None
          end
      | _ => None
      end
  end.

(** ** Numbers *)

(** The double nearest to an integer, ties to the even significand: an
    integer below [2^53] in absolute value is a double; a larger one keeps
    its 53 leading bits, rounded on the bits that are dropped. *)
Definition roundToDouble (x : Z) : Z :=
  let a := Z.abs x in
  if (a <? 2 ^ 53)%Z then x
  else
    let e := (Z.log2 a - 52)%Z in
    let q := (a / 2 ^ e)%Z in
    let r := (a mod 2 ^ e)%Z in
    let half := (2 ^ (e - 1))%Z in
    let q' := if (half <? r)%Z || ((r =? half)%Z && Z.odd q) then (q + 1)%Z else q in
    (Z.sgn x * (q' * 2 ^ e))%Z.

(** A rounded result that is a finite double: below [2^1024] in absolute
    value. *)
Definition finite (x : Z) : bool := (Z.abs x <? 2 ^ 1024)%Z.

(** [a + b] and [a * b] on numbers: the exact result, rounded.  [None]
    when the result is [Infinity], which is not a number of the model.
    [a - b] is [a + (-b)]. *)
Definition jsAdd (a b : Z) : option Z :=
  let s := roundToDouble (a + b) in
  if finite s then Some s else None.

Definition jsMul (a b : Z) : option Z :=
  let p := roundToDouble (a * b) in
  if finite p then Some p else None.

(** [Number.isSafeInteger] *)
Definition safeInteger (n : Z) : bool := (Z.abs n <? 2 ^ 53)%Z.

(** ** The underlying store instances *)

(** What [set] takes: a new value, or a function run on the state. *)
Inductive SetArg : Type :=
| NewValue (v : Value)
| Updater (f : Value -> option Value).

(** The zustand instances created so far.  [objects] holds every state
    object that was ever the state of an instance, by address; [current]
    gives, per instance, the address of its state; [calls] records the calls
    of [immerStoreApi.setState], instance and action name. *)
Record Stores : Type := mkStores {
  objects : list Value;
  current : list nat;
  calls : list (nat * option string);
}.

Definition noStores : Stores := mkStores [] [] [].

(** [immerStoreApi.getState()]: the state object of an instance, as an
    address, and its value. *)
Definition getState (st : Stores) (inst : nat) : option nat :=
  current st !! inst.

Definition valueAt (st : Stores) (addr : nat) : option Value :=
  objects st !! addr.

Definition stateOf (st : Stores) (inst : nat) : option Value :=
  match getState st inst with
  | Some addr => valueAt st addr
  | None => None
  end.

(** [pipeMiddlewares(() => initialState)] with the options' defaults (no
    extra middleware, no persistence, no devtools): a new instance whose
    state is [initialState]. *)
Definition createVanillaStore (st : Stores) (initialState : Value) : Stores * nat :=
  (mkStores (objects st ++ [initialState])
            (current st ++ [length (objects st)])
            (calls st),
   length (current st)).

(** Modelled from the spec: the immer middleware
    ([./middlewares/immer.middleware], not among the sources) and immer's
    [produce].  The state is changed by immutable updates only: a new value
    replaces the state, a function is run as a recipe on a draft of the
    current state and what it leaves is the next state; a recipe that throws
    leaves the state as it was. *)
Definition produce (base : Value) (fnOrNewValue : SetArg) : option Value :=
  match fnOrNewValue with
  | NewValue v => Some v
  | Updater f => f base
  end.

(** Modelled from the spec: [immerStoreApi.setState(fnOrNewValue,
    actionName)] of that middleware.  The next state is a new state object;
    no state object that exists is written to. *)
Definition immerStoreApi_setState (inst : nat) (fnOrNewValue : SetArg)
    (actionName : option string) (st : Stores) : Stores :=
  match stateOf st inst with
  | Some base =>
      match produce base fnOrNewValue with
      | Some next =>
          mkStores (objects st ++ [next])
                   (<[inst := length (objects st)]> (current st))
                   (calls st ++ [(inst, actionName)])
      | None =>
          mkStores (objects st) (current st) (calls st ++ [(inst, actionName)])
      end
  | None => st
  end.

(** ** The store object *)

(** What the closures of one [createInnerStore] call capture: the store's
    name, the instance they are bound to and the [initialState] parameter. *)
Record Env : Type := mkEnv {
  env_name : string;
  env_inst : nat;
  env_initialState : Value;
}.

(** Modelled from the spec: an accessor node of
    [./utils/generate-inner-selectors] (not among the sources), one per path
    of the state tree, bound to an instance, with the names of the methods
    it offers and the nodes of the paths below it. *)
Inductive Node : Type :=
| MkNode (inst : nat) (path : list string) (methods : list string)
    (children : list (string * Node)).

Definition node_inst (n : Node) : nat := let 'MkNode i _ _ _ := n in i.
Definition node_path (n : Node) : list string := let 'MkNode _ p _ _ := n in p.
Definition node_methods (n : Node) : list string := let 'MkNode _ _ m _ := n in m.
Definition node_children (n : Node) : list (string * Node) :=
  let 'MkNode _ _ _ c := n in c.

(** The members of a store object.  The hook [use] returns what [get]
    returns when the component renders; subscribing and re-rendering are
    React's and zustand's.  A function member takes its argument and the
    instances, and gives the instances after the call, or [None] when the
    call throws or leaves the values of the model. *)
Inductive Member : Type :=
| MValue (v : Value)
| MImmerStoreApi (inst : nat)
| MSet (e : Env)
| MGet (e : Env)
| MUse (e : Env)
| MAssign (e : Env)
| MNode (n : Node)
| MExtend
| MLocalProvider
| MUseLocalStore
| MComputed (derive : Stores -> option Value)
| MFunction (run : Value -> Stores -> option Stores).

(** A builder passed to [extend] that does nothing but return a record of
    new members, as the builders of [computed] and [actions] do: a function
    from the store to that record.  A builder that also writes to the store
    object it is given, or calls the store's methods while it is applied,
    is a [Live.Builder] below; [Live.returning] embeds the builders of this
    type there. *)
Definition Builder : Type := gmap string Member -> gmap string Member.

(** [Object.assign(target, source)] and the spread of store objects: the
    properties of [source] override those of [target]. *)
Definition assignMembers (target source : gmap string Member) : gmap string Member :=
  source ∪ target.

(** [actionName || fallback] *)
Definition orElse (actionName : option string) (fallback : string) : string :=
  match actionName with
  | Some s => if decide (s = EmptyString) then fallback else s
  | None => fallback
  end.

(** [setState] of [createInnerStore]. *)
Definition setState (e : Env) (fnOrNewValue : SetArg) (actionName : option string)
    (st : Stores) : Stores :=
  immerStoreApi_setState (env_inst e) fnOrNewValue
    (Some (orElse actionName ("@@" +:+ env_name e +:+ "/setState"))) st.

(** [assign] of [createInnerStore]: merge when the [initialState] parameter
    is an object, pass the value through otherwise. *)
Definition assign (e : Env) (state : Value) (actionName : option string)
    (st : Stores) : Stores :=
  immerStoreApi_setState (env_inst e)
    (if isObject (env_initialState e)
     then Updater (fun draft => Object_assign draft state)
     else NewValue state)
    (Some (orElse actionName ("@@" +:+ env_name e +:+ "/assign"))) st.

(** Modelled from the spec: the methods of the accessor generated for a
    value: get, set and use, and assign on object paths only. *)
Definition methodsFor (v : Value) : list string :=
  if isObject v then ["get"; "set"; "use"; "assign"] else ["get"; "set"; "use"].

(** Modelled from the spec: [generateInnerSelectors], the recursive
    traversal of the state shape that produces, for every nested path, a
    bound accessor exposing get/set/use/assign. *)
Fixpoint generateNode (inst : nat) (path : list string) (v : Value) : Node :=
  MkNode inst path (methodsFor v)
    (match v with
     | VObj fields =>
         map (fun kv => (kv.1, generateNode inst (path ++ [kv.1]) kv.2)) fields
     | _ => []
     end).

Definition generateInnerSelectors (st : Stores) (inst : nat) : gmap string Member :=
  match stateOf st inst with
  | Some state =>
      foldl (fun acc kn => <[kn.1 := MNode kn.2]> acc) ∅
            (node_children (generateNode inst [] state))
  | None => ∅
  end.

(** The node below a node, along a path. *)
Fixpoint descend (n : Node) (path : list string) : option Node :=
  match path with
  | [] => Some n
  | k :: path' =>
      match lookupLast k (node_children n) with
      | Some child => descend child path'
      | None => None
      end
  end.

(** The accessor a store object exposes at a non-empty path. *)
Definition accessorAt (store : gmap string Member) (path : list string) : option Node :=
  match path with
  | [] => None
  | k :: path' =>
      match store !! k with
      | Some (MNode n) => descend n path'
      | _ => None
      end
  end.

(** Modelled from the spec: the closures of an accessor node.  [get] reads
    the value at the node's path in the current state; [set] takes a value,
    or a function from the previous value of the property to the new one,
    and writes it at the path by an immutable update; [assign] merges a
    partial into the object at the path, and is no method of a node
    generated for a value that is not an object: calling it there throws,
    and nothing is set. *)
Definition nodeGet (n : Node) (st : Stores) : option Value :=
  match stateOf st (node_inst n) with
  | Some state => pathValue state (node_path n)
  | None => None
  end.

Definition nodeSet (n : Node) (valueOrFn : SetArg) (st : Stores) : Stores :=
  immerStoreApi_setState (node_inst n)
    (Updater (fun draft =>
       match pathValue draft (node_path n) with
       | Some prev =>
           match produce prev valueOrFn with
           | Some v => setPath draft (node_path n) v
           | None => None
           end
       | None => None
       end))
    None st.

Definition nodeAssign (n : Node) (partial : Value) (st : Stores) : Stores :=
  if decide ("assign" ∈ node_methods n)
  then
    immerStoreApi_setState (node_inst n)
      (Updater (fun draft =>
         match pathValue draft (node_path n) with
         | Some target =>
             match Object_assign target partial with
             | Some v => setPath draft (node_path n) v
             | None => None
             end
         | None => None
         end))
      None st
  else st.

(** Modelled from the spec: the method names an accessor offers.  A
    generated node offers the methods it was generated with; a computed
    property is read-only, with get and use. *)
Definition surface (m : Member) : list string :=
  match m with
  | MNode n => node_methods n
  | MComputed _ => ["get"; "use"]
  | _ => []
  end.

(** Reading through an accessor. *)
Definition accessorGet (m : Member) (st : Stores) : option Value :=
  match m with
  | MNode n => nodeGet n st
  | MComputed derive => derive st
  | MGet e => stateOf st (env_inst e)
  | _ => None
  end.

(** ** [createStore] *)

Definition globalMethods (e : Env) : gmap string Member :=
  {[ "set" := MSet e; "get" := MGet e; "use" := MUse e; "assign" := MAssign e ]}.

(** What the closures made by [createInnerStore name initialState] capture
    when the instances so far are [st]. *)
Definition innerEnv (name : string) (initialState : Value) (st : Stores) : Env :=
  mkEnv name (createVanillaStore st initialState).2 initialState.

(** [createInnerStore]: a new instance and the store object bound to it,
    [{ storeName, immerStoreApi, ...globalMethods, ...innerMethods }]. *)
Definition createInnerStore (name : string) (initialState : Value) (st : Stores)
  : Stores * gmap string Member :=
  let '(st', inst) := createVanillaStore st initialState in
  let e := innerEnv name initialState st in
  let innerMethods := generateInnerSelectors st' inst in
  (st',
   assignMembers
     (assignMembers
        {[ "storeName" := MValue (VStr name); "immerStoreApi" := MImmerStoreApi inst ]}
        (globalMethods e))
     innerMethods).

(** [applyExtensions]: [extensions.reduce((acc, ext) => Object.assign(acc,
    ext(acc)), store)]. *)
Definition applyExtensions (extensions : list Builder) (store : gmap string Member)
  : gmap string Member :=
  foldl (fun acc ext => assignMembers acc (ext acc)) store extensions.

(** The state one [createStore] call closes over: the instances, the
    registry [extensions], the store object [api], the store's name and the
    global [initialState].  [applied] lists the calls [ext(acc)] of the
    [applyExtensions] calls made so far: the builder's index in the registry
    and the instance of the store it was applied to.  Here [extend] and
    [LocalProvider] append the [applications] of their [applyExtensions]
    call; in [Live] the log is written by [applyExtensions] itself, call by
    call, and [live_applyExtensions_returning] shows that the two agree. *)
Record World : Type := mkWorld {
  stores : Stores;
  extensions : list Builder;
  api : gmap string Member;
  storeName : string;
  initialState : Value;
  applied : list (nat * nat);
}.

Definition withStores (w : World) (st : Stores) : World :=
  mkWorld st (extensions w) (api w) (storeName w) (initialState w) (applied w).

(** The applications one [applyExtensions] call makes on the store of
    instance [inst]. *)
Definition applications (extensions : list Builder) (inst : nat) : list (nat * nat) :=
  imap (fun (i : nat) (_ : Builder) => (i, inst)) extensions.

(** The instance of the global store: the first one made. *)
Definition globalInst : nat := 0.

(** [createStore(initialState, { name })]; [name] is the resolved name,
    [options.name] or else the JSON text made from the initial state. *)
Definition createStore (initialState : Value) (name : string) : World :=
  let '(st, globalStore) := createInnerStore name initialState noStores in
  mkWorld st []
    (assignMembers globalStore
       {[ "extend" := MExtend; "LocalProvider" := MLocalProvider;
          "useLocalStore" := MUseLocalStore ]})
    name initialState [].

(** [api.extend(builder)]. *)
Definition extend (builder : Builder) (w : World) : World :=
  let extensions' := extensions w ++ [builder] in
  let extendedStore := applyExtensions extensions' (api w) in
  mkWorld (stores w) extensions'
    (assignMembers extendedStore extendedStore)
    (storeName w) (initialState w)
    (applied w ++ applications extensions' globalInst).

(** [mergedInitialState] of [LocalProvider]; the [initialValue] prop is
    [None] when it is omitted, and then defaults to [{}]. *)
Definition localInitialValue (initialValue : option Value) : Value :=
  match initialValue with
  | Some VUndefined | None => VObj []
  | Some v => v
  end.

Definition nullish (v : Value) : bool :=
  match v with
  | VUndefined | VNull => true
  | _ => false
  end.

Definition mergedInitialState (initialState : Value) (initialValue : option Value) : Value :=
  if isObject initialState
  then spread2 initialState (localInitialValue initialValue)
  else if nullish (localInitialValue initialValue)
       then initialState
       else localInitialValue initialValue.

(** The [LocalContext] seen by a component: the values of the
    [LocalContext.Provider] elements above it, nearest first. *)
Definition Context : Type := list (gmap string Member).

(** [React.useContext(LocalContext)]; the context's default is [null]. *)
Definition useContext (ctx : Context) : option (gmap string Member) := head ctx.

(** Rendering [<LocalProvider initialValue={..}>] under [ctx]: the world
    after it, and the context its children are rendered under. *)
Definition LocalProvider (initialValue : option Value) (ctx : Context) (w : World)
  : World * Context :=
  let '(st, localStore) :=
    createInnerStore (storeName w)
      (mergedInitialState (initialState w) initialValue) (stores w) in
  let localStoreWithExtensions := applyExtensions (extensions w) localStore in
  (mkWorld st (extensions w) (api w) (storeName w) (initialState w)
     (applied w ++ applications (extensions w) (length (current (stores w)))),
   localStoreWithExtensions :: ctx).

(** [useLocalStore]: the store, or the message of the Error thrown. *)
Definition useLocalStore (ctx : Context) : gmap string Member + string :=
  match useContext ctx with
  | Some localStore => inl localStore
  | None => inr "useLocalStore must be used within a LocalProvider"
  end.

(** ** The fluent builder's [computed] and [actions] *)

(** Modelled from the spec: the [computed] step of the fluent builder (the
    package's index, not among the sources).  It registers, through
    [extend], a builder that binds every derivation to a read-only accessor
    whose value is recalculated from the state at each read. *)
Definition computedBuilder
    (computedCallback : gmap string Member -> gmap string (Stores -> option Value))
  : Builder :=
  fun store => MComputed <$> computedCallback store.

Definition computed
    (computedCallback : gmap string Member -> gmap string (Stores -> option Value))
    (w : World) : World :=
  extend (computedBuilder computedCallback) w.

(** Modelled from the spec: the [actions] step of the fluent builder
    registers its builder through [extend]. *)
Definition actions (builder : Builder) (w : World) : World := extend builder w.

(** Calling a function member of the global store, and a series of such
    calls; [None] when a call throws: the member is no function, or the
    function throws or leaves the values of the model. *)
Definition callAction (w : World) (call : string * Value) : option World :=
  match api w !! call.1 with
  | Some (MFunction run) => withStores w <$> run call.2 (stores w)
  | _ => None
  end.

Definition callActions (w : World) (calls : list (string * Value)) : option World :=
  foldl (fun acc call => acc ≫= fun w' => callAction w' call) (Some w) calls.

(** Reading an accessor of the global store. *)

Definition readAccessor (name : string) (w : World) : option Value :=
  match api w !! name with
  | Some m => accessorGet m (stores w)
  | None => None
  end.

(** ** What a program does with a store *)

Inductive Op : Type :=
| OpExtend (builder : Builder)
| OpSet (e : Env) (fnOrNewValue : SetArg) (actionName : option string)
| OpAssign (e : Env) (state : Value) (actionName : option string)
| OpNodeSet (n : Node) (valueOrFn : SetArg)
| OpNodeAssign (n : Node) (partial : Value)
| OpRender (initialValue : option Value) (ctx : Context).

Definition step (w : World) (op : Op) : World :=
  match op with
  | OpExtend builder => extend builder w
  | OpSet e fnOrNewValue actionName =>
      withStores w (setState e fnOrNewValue actionName (stores w))
  | OpAssign e state actionName =>
      withStores w (assign e state actionName (stores w))
  | OpNodeSet n valueOrFn => withStores w (nodeSet n valueOrFn (stores w))
  | OpNodeAssign n partial => withStores w (nodeAssign n partial (stores w))
  | OpRender initialValue ctx => (LocalProvider initialValue ctx w).1
  end.

Definition run (ops : list Op) (w : World) : World := foldl step w ops.

(** The builders a program registers, in the order of its [extend] calls. *)
Definition registered (ops : list Op) : list Builder :=
  omap (fun op => match op with OpExtend b => Some b | _ => None end) ops.

(** The instance and the closure environment of the store that rendering a
    [LocalProvider] in [w] creates. *)
Definition localInst (w : World) : nat := length (current (stores w)).

Definition localEnv (initialValue : option Value) (w : World) : Env :=
  innerEnv (storeName w) (mergedInitialState (initialState w) initialValue) (stores w).

Definition globalEnv (w : World) : Env :=
  mkEnv (storeName w) globalInst (initialState w).

(** The names the store defines next to the generated accessors and the
    builders' members. *)
Definition ownNames : gset string :=
  {[ "extend"; "LocalProvider"; "useLocalStore" ]}.

(** ** The counter of [store-computed.test.tsx] *)

(** The number an accessor of the store reads; [None] when it reads a value
    that is not a number of the model. *)
Definition readNum (store : gmap string Member) (name : string) (st : Stores)
  : option Z :=
  match store !! name with
  | Some m =>
      match accessorGet m st with
      | Some (VNum n) => Some n
      | _ => None
      end
  | None => None
  end.

(** [doubled: () => store.count.use() * 2] *)
Definition doubledCallback (store : gmap string Member)
  : gmap string (Stores -> option Value) :=
  {[ "doubled" := fun st =>
       match readNum store "count" st with
       | Some c => VNum <$> jsMul c 2
       | None => None
       end ]}.

(** [store.count.set(store.count.get() + 1)] and
    [store.count.set(store.count.get() - 1)], with [d] one and minus one:
    on numbers, [x - 1] is [x + (-1)].  The count of this store is a number;
    [None] when [store.count] is no accessor, so that the call throws, when
    what it reads is no number of the model, or when the sum is none. *)
Definition bump (store : gmap string Member) (d : Z) (st : Stores) : option Stores :=
  match store !! "count" with
  | Some (MNode n) =>
      match nodeGet n st with
      | Some (VNum c) =>
          match jsAdd c d with
          | Some sum => Some (nodeSet n (NewValue (VNum sum)) st)
          | None => None
          end
      | _ => None
      end
  | _ => None
  end.

Definition counterActions : Builder :=
  fun store =>
    {[ "increment" := MFunction (fun _ st => bump store 1 st);
       "decrement" := MFunction (fun _ st => bump store (-1) st) ]}.

Definition countStore (count : Z) : World :=
  actions counterActions
    (computed doubledCallback
       (createStore (VObj [("count", VNum count)]) "countStore")).

(** A run of the counter's actions: [true] for [increment], [false] for
    [decrement]; the count it should end with; and whether every count on
    the way, the first one included, is a safe integer. *)
Definition counterCall (up : bool) : string * Value :=
  (if up then "increment" else "decrement", VUndefined).

Definition countAfter (count : Z) (steps : list bool) : Z :=
  foldl (fun c (up : bool) => if up then c + 1 else c + -1)%Z count steps.

Fixpoint safeRun (count : Z) (steps : list bool) : bool :=
  safeInteger count &&
  match steps with
  | [] => true
  | up :: steps' => safeRun (if up then count + 1 else count + -1)%Z steps'
  end.

(** The instances' states are held: every address in [current] points to
    a state object. *)
Definition held (st : Stores) : Prop :=
  forall inst addr, getState st inst = Some addr -> addr < length (objects st).

(** Every instance of a running program holds a state, and the global
    instance is among them. *)
Definition sound (st : Stores) : Prop := held st ∧ 0 < length (current st).

(** ** Counting what a program did *)

(** The [LocalProvider] renders of a program. *)
Definition renders (ops : list Op) : nat :=
  length (omap (fun op => match op with OpRender iv _ => Some iv | _ => None end) ops).

(** ** The options of [createStore] *)

(** [options.immer]: both fields may be left out. *)
Record ImmerOptions : Type := mkImmerOptions {
  enabledAutoFreeze : option bool;
  enableMapSet : option bool;
}.

(** immer's settings, shared by every store of the process: whether
    produced states are frozen, and whether the Map and Set plugin is
    loaded. *)
Record ImmerSettings : Type := mkImmerSettings {
  autoFreeze : bool;
  mapSetEnabled : bool;
}.

(** [setAutoFreeze(immer?.enabledAutoFreeze ?? false);
     if (immer?.enableMapSet) { enableMapSet(); }] *)
Definition configureImmer (immer : option ImmerOptions) (s : ImmerSettings)
  : ImmerSettings :=
  let frozen := default false (immer ≫= enabledAutoFreeze) in
  if default false (immer ≫= enableMapSet)
  then mkImmerSettings frozen true
  else mkImmerSettings frozen (mapSetEnabled s).

(** [options.persist] and [options.devtools], with the fields the factory
    reads; what else they hold is passed on as it is. *)
Record PersistOptions : Type := mkPersistOptions {
  persist_enabled : bool;
  persist_name : option string;
}.

Record DevtoolsOptions : Type := mkDevtoolsOptions {
  devtools_enabled : bool;
  devtools_name : option string;
}.

Record CreateStoreOptions (M : Type) : Type := mkCreateStoreOptions {
  opt_middlewares : option (list M);
  opt_devtools : option DevtoolsOptions;
  opt_persist : option PersistOptions;
}.
Arguments mkCreateStoreOptions {M} _ _ _.
Arguments opt_middlewares {M} _.
Arguments opt_devtools {M} _.
Arguments opt_persist {M} _.

(** The entries of the [middlewares] array: the immer middleware, a
    middleware given in the options, the persist and devtools wrappers with
    the options they close over, and [createVanillaStore]. *)
Inductive Middleware (M : Type) : Type :=
| MwImmer
| MwGiven (m : M)
| MwPersist (opts : PersistOptions)
| MwDevtools (opts : DevtoolsOptions)
| MwCreateVanillaStore.
Arguments MwImmer {M}.
Arguments MwGiven {M} _.
Arguments MwPersist {M} _.
Arguments MwDevtools {M} _.
Arguments MwCreateVanillaStore {M}.

(** [const middlewares = [immerMiddleware, ..._middlewares]], then the
    pushes of the persist wrapper when [persist?.enabled], of the devtools
    wrapper when [devtools?.enabled], and of [createVanillaStore]. *)
Definition middlewaresOf {M : Type} (name : string) (options : CreateStoreOptions M)
  : list (Middleware M) :=
  let start := MwImmer :: (MwGiven <$> default [] (opt_middlewares options)) in
  let withPersist :=
    match opt_persist options with
    | Some persist =>
        if persist_enabled persist
        then start ++ [MwPersist (mkPersistOptions (persist_enabled persist)
                                    (Some (default name (persist_name persist))))]
        else start
    | None => start
    end in
  let withDevtools :=
    match opt_devtools options with
    | Some devtools =>
        if devtools_enabled devtools
        then withPersist ++ [MwDevtools (mkDevtoolsOptions (devtools_enabled devtools)
                                           (Some name))]
        else withPersist
    | None => withPersist
    end in
  withDevtools ++ [MwCreateVanillaStore].

Definition givenOf {M : Type} (mw : Middleware M) : option M :=
  match mw with MwGiven m => Some m | _ => None end.

Definition persistNameOf {M : Type} (mw : Middleware M) : option (option string) :=
  match mw with MwPersist opts => Some (persist_name opts) | _ => None end.

Definition devtoolsNameOf {M : Type} (mw : Middleware M) : option (option string) :=
  match mw with MwDevtools opts => Some (devtools_name opts) | _ => None end.

(** ** The store over a number of [store-computed.test.tsx] *)

(** [store(0)] with [doubled: () => state.use() * 2] and the actions
    [store.set(store.get() + 1)] and [store.set(store.get() - 1)]; the
    state of this store is a number, and [None] stands for what is outside
    the numbers of the model, as in [bump]. *)
Definition rootNum (member : string) (store : gmap string Member) (st : Stores)
  : option Z :=
  match store !! member with
  | Some (MGet e) | Some (MUse e) =>
      match stateOf st (env_inst e) with
      | Some (VNum n) => Some n
      | _ => None
      end
  | _ => None
  end.

Definition rootDoubledCallback (store : gmap string Member)
  : gmap string (Stores -> option Value) :=
  {[ "doubled" := fun st =>
       match rootNum "use" store st with
       | Some c => VNum <$> jsMul c 2
       | None => None
       end ]}.

Definition rootBump (store : gmap string Member) (d : Z) (st : Stores)
  : option Stores :=
  match store !! "set", rootNum "get" store st with
  | Some (MSet e), Some c =>
      match jsAdd c d with
      | Some sum => Some (setState e (NewValue (VNum sum)) None st)
      | None => None
      end
  | _, _ => None
  end.

Definition rootCounterActions : Builder :=
  fun store =>
    {[ "increment" := MFunction (fun _ st => rootBump store 1 st);
       "decrement" := MFunction (fun _ st => rootBump store (-1) st) ]}.

Definition rootCountStore (count : Z) : World :=
  extend rootCounterActions
    (computed rootDoubledCallback (createStore (VNum count) "rootCount")).

(** ** Builders that act on the store they are given *)

(** [applyExtensions] hands every builder the store object itself:
    [Object.assign(acc, ext(acc))].  While it is applied, a builder may
    write members onto that object or delete them, and it may call [set]
    and [assign] of any store it can reach; then it returns a record of
    members.  The module models [extend], [LocalProvider] and the programs
    over them for such builders. *)
Module Live.

(** A call of a store method. *)
Inductive Call : Type :=
| CallSet (e : Env) (fnOrNewValue : SetArg) (actionName : option string)
| CallAssign (e : Env) (state : Value) (actionName : option string)
| CallNodeSet (n : Node) (valueOrFn : SetArg)
| CallNodeAssign (n : Node) (partial : Value).

Definition call (st : Stores) (c : Call) : Stores :=
  match c with
  | CallSet e fnOrNewValue actionName => setState e fnOrNewValue actionName st
  | CallAssign e state actionName => assign e state actionName st
  | CallNodeSet n valueOrFn => nodeSet n valueOrFn st
  | CallNodeAssign n partial => nodeAssign n partial st
  end.

Definition runCalls (cs : list Call) (st : Stores) : Stores := foldl call st cs.

(** What one application [ext(acc)] does: [written] is the store object as
    the builder leaves it, [called] the calls it makes, in order, and
    [returned] the record it returns. *)
Record Applied : Type := mkApplied {
  written : gmap string Member;
  called : list Call;
  returned : gmap string Member;
}.

(** A builder that does nothing but return members. *)
Definition returning (builder : Builder) (store : gmap string Member) (st : Stores)
  : Applied :=
  mkApplied store [] (builder store).

(** A builder: what it does to a store object, given the states of the
    instances at the time. *)
Definition Builder : Type := gmap string Member -> Stores -> Applied.

(** The store object after [Object.assign(acc, ext(acc))]. *)
Definition assigned (builder : Builder) (store : gmap string Member) (st : Stores)
  : gmap string Member :=
  assignMembers (written (builder store st)) (returned (builder store st)).

(** What [applyExtensions] has done so far: the store object, the
    instances, and the log of the calls [ext(acc)] it made, each with the
    builder's index in the registry and the instance of the store the
    registry is applied to. *)
Record Replayed : Type := mkReplayed {
  object : gmap string Member;
  after : Stores;
  logged : list (nat * nat);
}.

(** One step of the [reduce]: [Object.assign(acc, ext(acc))]. *)
Definition applyExtension (target : nat) (acc : Replayed) (ext : nat * Builder)
  : Replayed :=
  mkReplayed (assigned ext.2 (object acc) (after acc))
             (runCalls (called (ext.2 (object acc) (after acc))) (after acc))
             (logged acc ++ [(ext.1, target)]).

(** [applyExtensions]: [extensions.reduce((acc, ext) => Object.assign(acc,
    ext(acc)), store)], on the store of instance [target]. *)
Definition applyExtensions (target : nat) (extensions : list Builder)
    (store : gmap string Member) (st : Stores) : Replayed :=
  foldl (applyExtension target) (mkReplayed store st [])
        (imap (fun (i : nat) (ext : Builder) => (i, ext)) extensions).

(** The state one [createStore] call closes over, as [World] above, with
    the log [applied] of the calls [ext(acc)] that [applyExtensions]
    made. *)
Record World : Type := mkWorld {
  stores : Stores;
  extensions : list Builder;
  api : gmap string Member;
  storeName : string;
  initialState : Value;
  applied : list (nat * nat);
}.

Definition withStores (w : World) (st : Stores) : World :=
  mkWorld st (extensions w) (api w) (storeName w) (initialState w) (applied w).

(** [createStore(initialState, { name })] *)
Definition createStore (initialState : Value) (name : string) : World :=
  let '(st, globalStore) := createInnerStore name initialState noStores in
  mkWorld st []
    (assignMembers globalStore
       {[ "extend" := MExtend; "LocalProvider" := MLocalProvider;
          "useLocalStore" := MUseLocalStore ]})
    name initialState [].

(** [api.extend(builder)] *)
Definition extend (builder : Builder) (w : World) : World :=
  let extensions' := extensions w ++ [builder] in
  let extendedStore := applyExtensions globalInst extensions' (api w) (stores w) in
  mkWorld (after extendedStore) extensions'
    (assignMembers (object extendedStore) (object extendedStore))
    (storeName w) (initialState w)
    (applied w ++ logged extendedStore).

(** Rendering [<LocalProvider initialValue={..}>] under [ctx]. *)
Definition LocalProvider (initialValue : option Value) (ctx : Context) (w : World)
  : World * Context :=
  let '(st, localStore) :=
    createInnerStore (storeName w)
      (mergedInitialState (initialState w) initialValue) (stores w) in
  let localStoreWithExtensions :=
    applyExtensions (length (current (stores w))) (extensions w) localStore st in
  (mkWorld (after localStoreWithExtensions) (extensions w) (api w)
     (storeName w) (initialState w)
     (applied w ++ logged localStoreWithExtensions),
   object localStoreWithExtensions :: ctx).

(** What a program does with a store. *)
Inductive Op : Type :=
| OpExtend (builder : Builder)
| OpCall (c : Call)
| OpRender (initialValue : option Value) (ctx : Context).

Definition step (w : World) (op : Op) : World :=
  match op with
  | OpExtend builder => extend builder w
  | OpCall c => withStores w (call (stores w) c)
  | OpRender initialValue ctx => (LocalProvider initialValue ctx w).1
  end.

Definition run (ops : list Op) (w : World) : World := foldl step w ops.

Definition registered (ops : list Op) : list Builder :=
  omap (fun op => match op with OpExtend b => Some b | _ => None end) ops.

(** The instance of the store that rendering a [LocalProvider] in [w]
    creates, and what the closures of that store capture. *)
Definition localInst (w : World) : nat := length (current (stores w)).

Definition localEnv (initialValue : option Value) (w : World) : Env :=
  innerEnv (storeName w) (mergedInitialState (initialState w) initialValue) (stores w).

(** The names a builder adds to an empty store. *)
Definition addedNames (builder : Builder) : gset string :=
  dom (assigned builder ∅ noStores).

(** A builder that adds the same names to every store, whatever the store
    holds and whatever the states are, and removes none. *)
Definition steady (builder : Builder) : Prop :=
  forall (store : gmap string Member) (st : Stores),
    dom (assigned builder store st) = dom store ∪ addedNames builder.

(** A builder that leaves the members of the given names as they are: it
    neither writes nor deletes them, and returns no member of these
    names. *)
Definition untouched (names : list string) (builder : Builder) : Prop :=
  forall (store : gmap string Member) (st : Stores) (k : string),
    k ∈ names -> assigned builder store st !! k = store !! k.


(** How often the builder at index [i] of the registry was applied to the
    store of instance [inst]. *)
Definition timesApplied (i inst : nat) (w : World) : nat :=
  length (filter (fun entry => entry = (i, inst)) (applied w)).

(** [(store) => 'LocalProvider' in store ? { reset() {} } : {}] *)
Definition onlyWithProvider : Builder :=
  fun store _ =>
    mkApplied store []
      match store !! "LocalProvider" with
      | Some _ => {[ "reset" := MFunction (fun _ st => Some st) ]}
      | None => ∅
      end.

(** [(store) => { if ('LocalProvider' in store) store.reset = () => {};
    return {} }] *)
Definition writesWithProvider : Builder :=
  fun store _ =>
    mkApplied
      match store !! "LocalProvider" with
      | Some _ => <[ "reset" := MFunction (fun _ st => Some st) ]> store
      | None => store
      end
      [] ∅.



End Live.

(** A world of builders that only return members, as a world of [Live]. *)
Definition liftWorld (w : World) : Live.World :=
  Live.mkWorld (stores w) (Live.returning <$> extensions w) (api w)
    (storeName w) (initialState w) (applied w).


(** * Properties *)

(** ** Property sequences *)

Section Props.
Context {A : Type}.
Implicit Types (k : string) (l : list (string * A)).

Lemma lookupLast_app k l1 l2 :
  lookupLast k (l1 ++ l2) =
  match lookupLast k l2 with
  | Some a => Some a
  | None => lookupLast k l1
  end.
Proof.
  induction l1 as [|[k' a] l1 IH]; simpl.
  - by destruct (lookupLast k l2).
  - rewrite IH. by destruct (lookupLast k l2).
Qed.




Lemma lookupLast_fmap {B : Type} (f : string -> A -> B) k l :
  lookupLast k ((fun kv => (kv.1, f kv.1 kv.2)) <$> l) = f k <$> lookupLast k l.
Proof.
  induction l as [|[k' b] l IH]; csimpl; [done|].
  rewrite IH. destruct (lookupLast k l); simpl; [done|].
  case_decide; by subst.
Qed.
End Props.




Lemma getProp_spread2 k a b :
  getProp k (spread2 a b) =
  match lookupLast k (ownProps b) with
  | Some v => Some v
  | None => lookupLast k (ownProps a)
  end.
Proof. apply lookupLast_app. Qed.


(** ** Numbers *)

Lemma safeInteger_spec n : safeInteger n = true <-> (- 2 ^ 53 < n < 2 ^ 53)%Z.
Proof. unfold safeInteger. rewrite Z.ltb_lt. lia. Qed.

Lemma roundToDouble_safe x : safeInteger x = true -> roundToDouble x = x.
Proof. unfold safeInteger, roundToDouble. by intros ->. Qed.

Lemma finite_below x : (Z.abs x < 2 ^ 54)%Z -> finite x = true.
Proof.
  intros H. unfold finite. apply Z.ltb_lt.
  eapply Z.lt_trans; [exact H|]. by apply Z.pow_lt_mono_r.
Qed.

Lemma jsAdd_safe a b : safeInteger (a + b) = true -> jsAdd a b = Some (a + b)%Z.
Proof.
  intros H. unfold jsAdd. rewrite roundToDouble_safe by done.
  rewrite finite_below; [done|]. apply safeInteger_spec in H. lia.
Qed.

(** Doubling a safe integer is exact, also where the double is no safe
    integer any more. *)
Lemma roundToDouble_double c :
  safeInteger c = true -> roundToDouble (c * 2) = (c * 2)%Z.
Proof.
  intros H. apply safeInteger_spec in H. unfold roundToDouble.
  destruct (Z.abs (c * 2) <? 2 ^ 53)%Z eqn:E; [done|].
  apply Z.ltb_ge in E.
  assert (Hlog : Z.log2 (Z.abs (c * 2)) = 53%Z).
  { apply Z.log2_unique; lia. }
  rewrite Hlog. change (53 - 52)%Z with 1%Z. change (2 ^ 1)%Z with 2%Z.
  change (2 ^ (1 - 1))%Z with 1%Z.
  rewrite Z.abs_mul. change (Z.abs 2) with 2%Z.
  rewrite Z.div_mul by done. rewrite Z.mod_mul by done.
  simpl. lia.
Qed.

Lemma jsMul_two c : safeInteger c = true -> jsMul c 2 = Some (c * 2)%Z.
Proof.
  intros H. unfold jsMul. rewrite roundToDouble_double by done.
  rewrite finite_below; [done|]. apply safeInteger_spec in H. lia.
Qed.

Lemma countAfter_snoc count steps (up : bool) :
  countAfter count (steps ++ [up]) =
  (if up then countAfter count steps + 1 else countAfter count steps + -1)%Z.
Proof. unfold countAfter. by rewrite foldl_app. Qed.

Lemma safeRun_snoc count steps (up : bool) :
  safeRun count (steps ++ [up]) = true ->
  safeRun count steps = true ∧
  safeInteger (countAfter count (steps ++ [up])) = true.
Proof.
  revert count. induction steps as [|u steps IH]; intros count.
  - cbn [app safeRun]. rewrite !andb_true_iff. intros (H1 & H2 & _).
    split; [by rewrite H1|]. by destruct up.
  - cbn [app safeRun]. rewrite !andb_true_iff. intros [H1 H2].
    destruct (IH _ H2) as [H3 H4]. split; [done|]. by destruct u.
Qed.

Lemma safeRun_last count steps :
  safeRun count steps = true -> safeInteger (countAfter count steps) = true.
Proof.
  revert count. induction steps as [|u steps IH]; intros count.
  - cbn [safeRun]. by rewrite andb_true_r.
  - cbn [safeRun]. rewrite andb_true_iff. intros [_ H]. by apply IH in H.
Qed.

(** ** Store instances *)

Lemma stateOf_createVanillaStore st initialState :
  stateOf (createVanillaStore st initialState).1
          (createVanillaStore st initialState).2 = Some initialState.
Proof.
  unfold stateOf, getState, valueAt. simpl.
  rewrite lookup_app_r by lia. rewrite Nat.sub_diag. simpl.
  rewrite lookup_app_r by lia. by rewrite Nat.sub_diag.
Qed.



Lemma valueAt_setState inst arg actionName st addr v :
  valueAt st addr = Some v ->
  valueAt (immerStoreApi_setState inst arg actionName st) addr = Some v.
Proof.
  unfold immerStoreApi_setState, valueAt. intros H.
  destruct (stateOf st inst); [|done].
  destruct (produce _ _); simpl; [|done]. by apply lookup_app_l_Some.
Qed.

Lemma getState_setState_ne inst inst' arg actionName st :
  inst ≠ inst' ->
  getState (immerStoreApi_setState inst arg actionName st) inst' = getState st inst'.
Proof.
  unfold immerStoreApi_setState, getState. intros H.
  destruct (stateOf st inst); [|done].
  destruct (produce _ _); simpl; [|done]. by rewrite list_lookup_insert_ne.
Qed.

Lemma length_current_setState inst arg actionName st :
  length (current (immerStoreApi_setState inst arg actionName st)) =
  length (current st).
Proof.
  unfold immerStoreApi_setState.
  destruct (stateOf st inst); [|done].
  destruct (produce _ _); simpl; [|done]. by rewrite length_insert.
Qed.

Lemma held_createVanillaStore st initialState :
  held st -> held (createVanillaStore st initialState).1.
Proof.
  unfold held, getState. simpl. intros H inst addr.
  rewrite length_app. simpl.
  destruct (decide (inst < length (current st))) as [Hlt|Hge].
  - rewrite lookup_app_l by done. intros ?%H. lia.
  - rewrite lookup_app_r by lia.
    destruct (inst - length (current st)) as [|n]; simpl; [|done].
    intros [= <-]. lia.
Qed.

Lemma held_setState inst arg actionName st :
  held st -> held (immerStoreApi_setState inst arg actionName st).
Proof.
  unfold held, getState, immerStoreApi_setState. intros H inst' addr.
  destruct (stateOf st inst) eqn:E; [|apply H].
  destruct (produce _ _); simpl; [|apply H].
  rewrite length_app. simpl.
  destruct (decide (inst = inst')) as [<-|Hne].
  - intros [(_ & -> & _)|[? _]]%list_lookup_insert_Some; [lia|done].
  - rewrite list_lookup_insert_ne by done. intros ?%H. lia.
Qed.

Lemma stateOf_setState_ne inst inst' arg actionName st :
  held st -> inst ≠ inst' ->
  stateOf (immerStoreApi_setState inst arg actionName st) inst' = stateOf st inst'.
Proof.
  intros Hheld Hne. unfold stateOf.
  rewrite getState_setState_ne by done.
  destruct (getState st inst') as [addr|] eqn:E; [|done].
  apply Hheld in E. unfold valueAt in *.
  destruct (lookup_lt_is_Some_2 _ _ E) as [v Hv].
  rewrite Hv. by apply (valueAt_setState inst arg actionName st addr v).
Qed.

Lemma stateOf_setState_eq inst arg actionName st base next :
  stateOf st inst = Some base ->
  produce base arg = Some next ->
  stateOf (immerStoreApi_setState inst arg actionName st) inst = Some next.
Proof.
  intros Hbase Hnext. unfold immerStoreApi_setState. rewrite Hbase, Hnext.
  unfold stateOf, getState, valueAt in *. simpl.
  destruct (current st !! inst) as [addr|] eqn:E; [|done].
  rewrite list_lookup_insert_eq by (by eapply lookup_lt_Some).
  rewrite lookup_app_r by lia. by rewrite Nat.sub_diag.
Qed.

Lemma valueAt_nodeAssign n partial st addr v :
  valueAt st addr = Some v -> valueAt (nodeAssign n partial st) addr = Some v.
Proof.
  intros H. unfold nodeAssign. case_decide; [|done]. by apply valueAt_setState.
Qed.

Lemma length_current_nodeAssign n partial st :
  length (current (nodeAssign n partial st)) = length (current st).
Proof.
  unfold nodeAssign. case_decide; [|done]. apply length_current_setState.
Qed.

Lemma held_nodeAssign n partial st : held st -> held (nodeAssign n partial st).
Proof.
  intros H. unfold nodeAssign. case_decide; [|done]. by apply held_setState.
Qed.


(** ** Programs *)

Lemma run_snoc ops op w : run (ops ++ [op]) w = step (run ops w) op.
Proof. unfold run. by rewrite foldl_app. Qed.

Lemma step_storeName w op : storeName (step w op) = storeName w.
Proof.
  by destruct op.
Qed.

Lemma step_initialState w op : initialState (step w op) = initialState w.
Proof.
  by destruct op.
Qed.

Lemma step_extensions w op :
  extensions (step w op) = extensions w ++ registered [op].
Proof.
  destruct op; simpl; by rewrite ?app_nil_r.
Qed.

Lemma run_storeName ops w : storeName (run ops w) = storeName w.
Proof.
  induction ops as [|op ops IH] using rev_ind; [done|].
  by rewrite run_snoc, step_storeName.
Qed.

Lemma run_initialState ops w : initialState (run ops w) = initialState w.
Proof.
  induction ops as [|op ops IH] using rev_ind; [done|].
  by rewrite run_snoc, step_initialState.
Qed.

Lemma registered_app ops1 ops2 :
  registered (ops1 ++ ops2) = registered ops1 ++ registered ops2.
Proof. apply omap_app. Qed.

Lemma run_extensions ops w :
  extensions (run ops w) = extensions w ++ registered ops.
Proof.
  induction ops as [|op ops IH] using rev_ind.
  - simpl. by rewrite app_nil_r.
  - rewrite run_snoc, step_extensions, IH, registered_app. by rewrite app_assoc.
Qed.

Lemma stores_LocalProvider initialValue ctx w :
  stores (LocalProvider initialValue ctx w).1 =
  (createVanillaStore (stores w)
     (mergedInitialState (initialState w) initialValue)).1.
Proof. done. Qed.

Lemma sound_setState inst arg actionName st :
  sound st -> sound (immerStoreApi_setState inst arg actionName st).
Proof.
  intros [H1 H2]. split; [by apply held_setState|].
  by rewrite length_current_setState.
Qed.

Lemma sound_nodeAssign n partial st : sound st -> sound (nodeAssign n partial st).
Proof.
  intros [H1 H2]. split; [by apply held_nodeAssign|].
  by rewrite length_current_nodeAssign.
Qed.

Lemma sound_createVanillaStore st v :
  sound st -> sound (createVanillaStore st v).1.
Proof.
  intros [H1 H2]. split; [by apply held_createVanillaStore|].
  simpl. rewrite length_app. lia.
Qed.

Lemma sound_createStore initialState name :
  sound (stores (createStore initialState name)).
Proof.
  split; simpl; [|lia].
  intros inst addr. unfold getState. simpl.
  destruct inst; simpl; [|done]. intros [= <-]. lia.
Qed.

Lemma held_stateOf st inst :
  held st -> inst < length (current st) -> is_Some (stateOf st inst).
Proof.
  intros Hheld Hlt. unfold stateOf.
  destruct (lookup_lt_is_Some_2 _ _ Hlt) as [addr Haddr].
  unfold getState. rewrite Haddr.
  apply lookup_lt_is_Some_2. by eapply Hheld.
Qed.


Lemma stateOf_localInst initialValue ctx w :
  stateOf (stores (LocalProvider initialValue ctx w).1) (localInst w) =
  Some (mergedInitialState (initialState w) initialValue).
Proof. rewrite stores_LocalProvider. apply stateOf_createVanillaStore. Qed.

(** ** Immutable updates *)

(** C7.  [set] and [assign] change the state in one way only: by one call
    of the immer middleware's [setState] on their own instance.  A state
    object obtained by [get] before the call has the same value after it,
    also after a [set] or [assign] of an accessor node, as has every other
    state object; when the update goes through, the instance's state is a
    new state object. *)
Theorem set_and_assign_update_immutably
    (e : Env) (fnOrNewValue : SetArg) (state : Value)
    (actionName : option string) (st : Stores) (addr : nat) (before : Value)
    (n : Node) :
  getState st (env_inst e) = Some addr ->
  valueAt st addr = Some before ->
  let merge :=
    if isObject (env_initialState e)
    then Updater (fun draft => Object_assign draft state)
    else NewValue state in
  let setName := Some (orElse actionName ("@@" +:+ env_name e +:+ "/setState")) in
  let assignName := Some (orElse actionName ("@@" +:+ env_name e +:+ "/assign")) in
  let viaSet := setState e fnOrNewValue actionName st in
  let viaAssign := assign e state actionName st in
  viaSet = immerStoreApi_setState (env_inst e) fnOrNewValue setName st ∧
  viaAssign = immerStoreApi_setState (env_inst e) merge assignName st ∧
  calls viaSet = calls st ++ [(env_inst e, setName)] ∧
  calls viaAssign = calls st ++ [(env_inst e, assignName)] ∧
  valueAt viaSet addr = Some before ∧
  valueAt viaAssign addr = Some before ∧
  valueAt (nodeSet n fnOrNewValue st) addr = Some before ∧
  valueAt (nodeAssign n state st) addr = Some before ∧
  (forall a x, valueAt st a = Some x ->
     valueAt viaSet a = Some x ∧ valueAt viaAssign a = Some x) ∧
  (forall next, produce before fnOrNewValue = Some next ->
     valueAt st (length (objects st)) = None ∧
     getState viaSet (env_inst e) = Some (length (objects st)) ∧
     valueAt viaSet (length (objects st)) = Some next) ∧
  (forall next, produce before merge = Some next ->
     valueAt st (length (objects st)) = None ∧
     getState viaAssign (env_inst e) = Some (length (objects st)) ∧
     valueAt viaAssign (length (objects st)) = Some next).
Proof.
  intros Haddr Hbefore merge setName assignName viaSet viaAssign.
  assert (Hstate : stateOf st (env_inst e) = Some before).
  { unfold stateOf. by rewrite Haddr. }
  assert (Hnew : forall arg label next, produce before arg = Some next ->
    valueAt st (length (objects st)) = None ∧
    getState (immerStoreApi_setState (env_inst e) arg label st) (env_inst e)
      = Some (length (objects st)) ∧
    valueAt (immerStoreApi_setState (env_inst e) arg label st)
      (length (objects st)) = Some next).
  { intros arg label next Hnext. split.
    - unfold valueAt. by apply lookup_ge_None_2.
    - unfold immerStoreApi_setState. rewrite Hstate, Hnext.
      unfold getState, valueAt. simpl. split.
      + apply list_lookup_insert_eq. by eapply lookup_lt_Some.
      + rewrite lookup_app_r by lia. by rewrite Nat.sub_diag. }
  assert (Hcalls : forall arg label,
    calls (immerStoreApi_setState (env_inst e) arg label st)
      = calls st ++ [(env_inst e, label)]).
  { intros arg label. unfold immerStoreApi_setState. rewrite Hstate.
    by destruct (produce before arg). }
  split_and!.
  - done.
  - done.
  - apply Hcalls.
  - apply Hcalls.
  - by apply valueAt_setState.
  - by apply valueAt_setState.
  - by apply valueAt_setState.
  - by apply valueAt_nodeAssign.
  - intros a x Hx. split; by apply valueAt_setState.
  - intros next. apply Hnew.
  - intros next. apply Hnew.
Qed.

Lemma set_and_assign_update_immutably_witness :
  let st := stores (createStore (VObj [("count", VNum 1)]) "counter") in
  let e := mkEnv "counter" 0 (VObj [("count", VNum 1)]) in
  getState st 0 = Some 0 ∧
  valueAt st 0 = Some (VObj [("count", VNum 1)]) ∧
  valueAt (assign e (VObj [("count", VNum 2)]) None st) 0
    = Some (VObj [("count", VNum 1)]).
Proof.
  split; [reflexivity|]. split; [reflexivity|].
  exact (proj1 (proj2 (proj2 (proj2 (proj2 (proj2
    (set_and_assign_update_immutably
       (mkEnv "counter" 0 (VObj [("count", VNum 1)]))
       (NewValue VNull) (VObj [("count", VNum 2)]) None
       (stores (createStore (VObj [("count", VNum 1)]) "counter"))
       0 (VObj [("count", VNum 1)]) (MkNode 0 ["count"] ["get"; "set"; "use"] [])
       eq_refl eq_refl))))))).
Defined.

(** ** Reading the local store *)

(** C9.  [useLocalStore] returns the store of the nearest [LocalProvider]
    above the component: under a provider, that provider's store with the
    registered extensions applied, whatever providers lie further out.
    With no provider above, it throws an Error with the message
    ['useLocalStore must be used within a LocalProvider']. *)
Theorem useLocalStore_nearest_or_throws
    (initialValue : option Value) (ctx : Context) (w : World)
    (localStore : gmap string Member) :
  useLocalStore (localStore :: ctx) = inl localStore ∧
  useLocalStore (LocalProvider initialValue ctx w).2 =
    inl (applyExtensions (extensions w)
           (createInnerStore (storeName w)
              (mergedInitialState (initialState w) initialValue) (stores w)).2) ∧
  useLocalStore [] = inr "useLocalStore must be used within a LocalProvider".
Proof. done. Qed.

(** ** The root [assign] *)

Lemma assign_passes_through e st base state actionName :
  isObject (env_initialState e) = false ->
  stateOf st (env_inst e) = Some base ->
  stateOf (assign e state actionName st) (env_inst e) = Some state ∧
  objects (assign e state actionName st)
    = objects (setState e (NewValue state) actionName st) ∧
  current (assign e state actionName st)
    = current (setState e (NewValue state) actionName st).
Proof.
  intros Hobj Hbase. unfold assign, setState. rewrite Hobj. split.
  - by eapply stateOf_setState_eq.
  - unfold immerStoreApi_setState. by rewrite Hbase.
Qed.


Lemma isObject_VObj v : isObject v = true <-> exists fields, v = VObj fields.
Proof.
  split.
  - destruct v; try done. by eexists.
  - by intros [fields ->].
Qed.

(** C10, as the code has it.  [isObject] holds of objects only, not of
    arrays.  For a store whose initial root state is not an object, the
    root [assign] passes its argument through like [set]: the argument
    replaces the state.  When the global initial state is not an object,
    [LocalProvider] does not merge: the local store starts from
    [initialValue], from [{}] when [initialValue] is omitted, and from the
    global initial state when [initialValue] is [null]. *)
Theorem non_object_root_is_not_merged
    (e : Env) (st : Stores) (base state : Value) (actionName : option string)
    (initialState0 : Value) (name : string) (ops : list Op)
    (initialValue : option Value) (ctx : Context) :
  isObject (env_initialState e) = false ->
  stateOf st (env_inst e) = Some base ->
  isObject initialState0 = false ->
  let w := run ops (createStore initialState0 name) in
  (forall items, isObject (VArr items) = false) ∧
  (forall v, isObject v = true <-> exists fields, v = VObj fields) ∧
  stateOf (assign e state actionName st) (env_inst e) = Some state ∧
  objects (assign e state actionName st)
    = objects (setState e (NewValue state) actionName st) ∧
  current (assign e state actionName st)
    = current (setState e (NewValue state) actionName st) ∧
  isObject (env_initialState (globalEnv w)) = false ∧
  stateOf (stores (LocalProvider initialValue ctx w).1) (localInst w) =
    Some match initialValue with
         | None | Some VUndefined => VObj []
         | Some VNull => initialState0
         | Some v => v
         end.
Proof.
  intros Hobj Hbase Hobj0 w.
  assert (Hinit : initialState w = initialState0) by apply run_initialState.
  destruct (assign_passes_through e st base state actionName Hobj Hbase)
    as (H1 & H2 & H3).
  split_and!; try done.
  - apply isObject_VObj.
  - simpl. by rewrite Hinit.
  - rewrite stateOf_localInst, Hinit. unfold mergedInitialState.
    rewrite Hobj0. by destruct initialValue as [[]|].
Qed.

Lemma non_object_root_is_not_merged_witness :
  let w := createStore (VNum 0) "zero" in
  isObject (env_initialState (globalEnv w)) = false ∧
  stateOf (stores w) (env_inst (globalEnv w)) = Some (VNum 0) ∧
  isObject (VNum 0) = false ∧
  stateOf (assign (globalEnv w) (VNum 7) None (stores w)) globalInst
    = Some (VNum 7) ∧
  stateOf (stores (LocalProvider (Some (VNum 3)) [] w).1) (localInst w)
    = Some (VNum 3).
Proof.
  split; [reflexivity|]. split; [reflexivity|]. split; [reflexivity|].
  pose proof (non_object_root_is_not_merged
    (globalEnv (createStore (VNum 0) "zero"))
    (stores (createStore (VNum 0) "zero")) (VNum 0) (VNum 7) None
    (VNum 0) "zero" [] (Some (VNum 3)) [] eq_refl eq_refl eq_refl) as H.
  split; [exact (proj1 (proj2 (proj2 H)))|].
  exact (proj2 (proj2 (proj2 (proj2 (proj2 (proj2 H)))))).
Defined.

(** C10 as stated fails when [initialValue] is [null]: over the global
    initial state [5], the local store starts from [5], not from the
    [initialValue] it was given. *)
Lemma null_initialValue_falls_back :
  let w := createStore (VNum 5) "five" in
  isObject (initialState w) = false ∧
  localInitialValue (Some VNull) = VNull ∧
  stateOf (stores (LocalProvider (Some VNull) [] w).1) (localInst w)
    = Some (VNum 5) ∧
  stateOf (stores (LocalProvider (Some VNull) [] w).1) (localInst w)
    ≠ Some (localInitialValue (Some VNull)).
Proof. by split_and!. Qed.

(** ** The members of a store object *)

Lemma lookup_foldl_insert (l : list (string * Node)) (m : gmap string Member) k :
  foldl (fun acc kn => <[kn.1 := MNode kn.2]> acc) m l !! k =
  match lookupLast k l with
  | Some n => Some (MNode n)
  | None => m !! k
  end.
Proof.
  revert m. induction l as [|[k0 n0] l IH]; intros m; simpl; [done|].
  rewrite IH. destruct (lookupLast k l); [done|].
  rewrite lookup_insert. repeat case_decide; congruence.
Qed.

Lemma children_generateNode inst path v k :
  lookupLast k (node_children (generateNode inst path v)) =
  generateNode inst (path ++ [k]) <$> getProp k v.
Proof.
  destruct v; try done. simpl.
  apply (lookupLast_fmap (fun k v => generateNode inst (path ++ [k]) v)).
Qed.

Lemma generateInnerSelectors_lookup st inst state k :
  stateOf st inst = Some state ->
  generateInnerSelectors st inst !! k =
  (fun v => MNode (generateNode inst [k] v)) <$> getProp k state.
Proof.
  intros H. unfold generateInnerSelectors. rewrite H.
  rewrite lookup_foldl_insert, children_generateNode.
  by destruct (getProp k state).
Qed.

Lemma createInnerStore_lookup name initialState0 st k :
  (createInnerStore name initialState0 st).2 !! k =
  match getProp k initialState0 with
  | Some v => Some (MNode (generateNode (length (current st)) [k] v))
  | None =>
      (globalMethods (innerEnv name initialState0 st) ∪
       {[ "storeName" := MValue (VStr name);
          "immerStoreApi" := MImmerStoreApi (length (current st)) ]}) !! k
  end.
Proof.
  unfold createInnerStore, assignMembers. cbn [createVanillaStore snd].
  rewrite lookup_union.
  rewrite (generateInnerSelectors_lookup _ _ initialState0)
    by apply stateOf_createVanillaStore.
  destruct (getProp k initialState0); simpl.
  - by destruct (_ !! k).
  - by destruct (_ !! k).
Qed.

Lemma api_createStore_lookup initialState0 name k :
  k ∉ ownNames ->
  api (createStore initialState0 name) !! k =
  (createInnerStore name initialState0 noStores).2 !! k.
Proof.
  intros Hk. unfold createStore.
  destruct (createInnerStore name initialState0 noStores) as [st globalStore].
  cbn [api snd]. unfold assignMembers.
  apply lookup_union_r.
  apply not_elem_of_dom. unfold ownNames in Hk.
  rewrite !dom_insert_L, dom_singleton_L. set_solver.
Qed.


(** ** The extension registry *)

Lemma applyExtensions_snoc exts ext store :
  applyExtensions (exts ++ [ext]) store =
  assignMembers (applyExtensions exts store) (ext (applyExtensions exts store)).
Proof. unfold applyExtensions. by rewrite foldl_app. Qed.

Lemma applications_seq exts inst :
  applications exts inst = (fun i => (i, inst)) <$> seq 0 (length exts).
Proof. unfold applications. apply imap_seq_0. Qed.

Lemma extensions_createStore initialState0 name ops :
  extensions (run ops (createStore initialState0 name)) = registered ops.
Proof. by rewrite run_extensions. Qed.

(** C2.  The registry is the sequence of the builders passed to [extend],
    in the order of the calls.  A call of [extend] appends its builder and
    applies the registry to the global store there and then, the new
    builder last, on the store the earlier builders have extended.
    Rendering a [LocalProvider] replays all builders registered so far on
    the new local store, first registered first. *)
Theorem extensions_are_replayed_in_order
    (initialState0 : Value) (name : string) (ops : list Op) (builder : Builder)
    (initialValue : option Value) (ctx : Context) :
  let w := run ops (createStore initialState0 name) in
  let replayed := applyExtensions (registered ops) (api w) in
  let localStore :=
    (createInnerStore name (mergedInitialState initialState0 initialValue)
       (stores w)).2 in
  extensions w = registered ops ∧
  extensions (extend builder w) = registered ops ++ [builder] ∧
  api (extend builder w) = assignMembers replayed (builder replayed) ∧
  applied (extend builder w) =
    applied w ++ ((fun i => (i, globalInst)) <$> seq 0 (length (registered ops)))
              ++ [(length (registered ops), globalInst)] ∧
  extensions (LocalProvider initialValue ctx w).1 = registered ops ∧
  head (LocalProvider initialValue ctx w).2 =
    Some (foldl (fun acc ext => assignMembers acc (ext acc)) localStore
            (registered ops)) ∧
  applied (LocalProvider initialValue ctx w).1 =
    applied w ++ ((fun i => (i, localInst w)) <$> seq 0 (length (registered ops))).
Proof.
  intros w replayed localStore.
  assert (Hexts : extensions w = registered ops)
    by apply extensions_createStore.
  assert (Hname : storeName w = name) by apply run_storeName.
  assert (Hinit : initialState w = initialState0) by apply run_initialState.
  split_and!.
  - done.
  - simpl. by rewrite Hexts.
  - simpl. rewrite Hexts, applyExtensions_snoc.
    unfold assignMembers at 1. by rewrite (idemp_L (∪)).
  - simpl. rewrite Hexts, applications_seq, length_app. simpl.
    rewrite Nat.add_1_r, seq_S, fmap_app. done.
  - done.
  - simpl. by rewrite Hexts, Hname, Hinit.
  - simpl. by rewrite Hexts, applications_seq.
Qed.

(** ** Names kept by the registry *)



Lemma fixed_members e1 e2 (a1 a2 b1 b2 : Member) k :
  is_Some ((globalMethods e1 ∪ {[ "storeName" := a1; "immerStoreApi" := b1 ]}) !! k) ->
  is_Some ((globalMethods e2 ∪ {[ "storeName" := a2; "immerStoreApi" := b2 ]}) !! k).
Proof.
  rewrite <- !elem_of_dom. unfold globalMethods.
  by rewrite !dom_union_L, !dom_insert_L, !dom_singleton_L.
Qed.

Lemma getProp_merged initialState0 initialValue k :
  is_Some (getProp k initialState0) ->
  is_Some (getProp k (mergedInitialState initialState0 initialValue)).
Proof.
  destruct initialState0; try by intros [? [=]].
  unfold mergedInitialState. cbn [isObject]. rewrite getProp_spread2.
  intros H. by destruct (lookupLast k _).
Qed.

Lemma createInnerStore_surface name initialState0 initialValue st1 st2 k :
  is_Some ((createInnerStore name initialState0 st1).2 !! k) ->
  is_Some ((createInnerStore name
              (mergedInitialState initialState0 initialValue) st2).2 !! k).
Proof.
  rewrite !createInnerStore_lookup.
  destruct (getProp k initialState0) as [v|] eqn:E.
  - intros _.
    destruct (getProp_merged initialState0 initialValue k) as [v' ->];
      [by rewrite E|]. by eexists.
  - intros H. destruct (getProp k (mergedInitialState _ _)); [by eexists|].
    by eapply fixed_members.
Qed.

(** ** Accessor nodes *)

Lemma node_inst_generateNode inst path v : node_inst (generateNode inst path v) = inst.
Proof. by destruct v. Qed.

Lemma node_path_generateNode inst path v : node_path (generateNode inst path v) = path.
Proof. by destruct v. Qed.

Lemma descend_generateNode inst base path root v :
  pathValue root path = Some v ->
  descend (generateNode inst base root) path
    = Some (generateNode inst (base ++ path) v).
Proof.
  revert base root. induction path as [|k path IH]; intros base root.
  - intros [= ->]. simpl. by rewrite app_nil_r.
  - cbn [pathValue descend]. rewrite children_generateNode.
    destruct (getProp k root) as [child|]; [|done]. simpl.
    intros H. rewrite (IH _ _ H). by rewrite <- app_assoc.
Qed.

Lemma node_methods_generateNode inst path v :
  node_methods (generateNode inst path v) = methodsFor v.
Proof. by destruct v. Qed.

Lemma api_createStore_own initialState0 name k :
  k ∈ ownNames ->
  exists m, api (createStore initialState0 name) !! k = Some m ∧
            m ∈ [MExtend; MLocalProvider; MUseLocalStore].
Proof.
  intros Hk. unfold createStore.
  destruct (createInnerStore name initialState0 noStores) as [st globalStore].
  cbn [api]. unfold assignMembers. rewrite lookup_union.
  unfold ownNames in Hk. rewrite !elem_of_union, !elem_of_singleton in Hk.
  destruct Hk as [[->| ->]| ->]; destruct (globalStore !! _);
    eexists; (split; [reflexivity|]); set_solver.
Qed.



(** C3, as the code has it.  For every path of property names that is
    reachable in the initial state and does not start with a name the store
    object defines itself ([extend], [LocalProvider], [useLocalStore]), the
    store that [createStore] returns exposes one accessor node, bound to
    that path of the global instance, that reads the value at the path and
    offers get, set and use, and assign when the value at the path is an
    object.  At a path that starts with one of the store's own names there
    is no accessor, whatever the initial state is: the store holds its own
    member there.  The accessor of a computed property offers get and use
    only. *)
Theorem accessor_at_every_unshadowed_path
    (initialState0 : Value) (name : string) (k : string) (path : list string)
    (v : Value) :
  pathValue initialState0 (k :: path) = Some v ->
  k ∉ ownNames ->
  let w := createStore initialState0 name in
  (exists n,
     accessorAt (api w) (k :: path) = Some n ∧
     (forall n', accessorAt (api w) (k :: path) = Some n' -> n' = n) ∧
     node_inst n = globalInst ∧
     node_path n = k :: path ∧
     surface (MNode n) =
       (if isObject v then ["get"; "set"; "use"; "assign"]
        else ["get"; "set"; "use"]) ∧
     nodeGet n (stores w) = Some v) ∧
  (forall (state : Value) (name' own : string) (below : list string),
     own ∈ ownNames ->
     accessorAt (api (createStore state name')) (own :: below) = None ∧
     exists m, api (createStore state name') !! own = Some m ∧ surface m = []) ∧
  (forall computedCallback store property m,
     computedBuilder computedCallback store !! property = Some m ->
     surface m = ["get"; "use"] ∧ ("set" ∉ surface m) ∧ ("assign" ∉ surface m)).
Proof.
  intros Hpath Hown w. split_and!.
  - cbn [pathValue] in Hpath.
    destruct (getProp k initialState0) as [child|] eqn:Hchild; [|done].
    assert (Hk : api w !! k = Some (MNode (generateNode globalInst [k] child))).
    { unfold w. rewrite api_createStore_lookup by done.
      by rewrite createInnerStore_lookup, Hchild. }
    exists (generateNode globalInst ([k] ++ path) v).
    assert (Hacc : accessorAt (api w) (k :: path)
      = Some (generateNode globalInst ([k] ++ path) v)).
    { cbn [accessorAt]. rewrite Hk. by apply descend_generateNode. }
    split_and!.
    + done.
    + intros n'. rewrite Hacc. by intros [= <-].
    + apply node_inst_generateNode.
    + apply node_path_generateNode.
    + cbn [surface]. apply node_methods_generateNode.
    + unfold nodeGet. rewrite node_inst_generateNode, node_path_generateNode.
      change (stateOf (stores w) globalInst) with (Some initialState0).
      cbn [pathValue app]. by rewrite Hchild.
  - intros state name' own below Hin.
    destruct (api_createStore_own state name' own Hin) as (m & Hm & Hkind).
    cbn [accessorAt]. rewrite Hm. rewrite !elem_of_cons in Hkind.
    destruct Hkind as [->|[->|[->|Hnil]]]; [by eauto..|].
    by apply elem_of_nil in Hnil.
  - intros cb store property m. unfold computedBuilder.
    rewrite lookup_fmap. destruct (cb store !! property); [|done].
    intros [= <-]. simpl. split_and!; [done|..].
    + by apply (bool_decide_unpack _).
    + by apply (bool_decide_unpack _).
Qed.

Lemma accessor_at_every_unshadowed_path_witness :
  let user :=
    VObj [("name", VStr "John");
          ("address", VObj [("street", VStr "123 Main St"); ("city", VStr "Anytown")])] in
  let w := createStore user "user" in
  pathValue user ["address"; "city"] = Some (VStr "Anytown") ∧
  ("address" ∉ ownNames) ∧
  exists n,
    accessorAt (api w) ["address"; "city"] = Some n ∧
    surface (MNode n) = ["get"; "set"; "use"] ∧
    nodeGet n (stores w) = Some (VStr "Anytown").
Proof.
  assert (Hown : "address" ∉ ownNames) by (by apply (bool_decide_unpack _)).
  split; [reflexivity|]. split; [exact Hown|].
  destruct (proj1 (accessor_at_every_unshadowed_path
    (VObj [("name", VStr "John");
           ("address", VObj [("street", VStr "123 Main St"); ("city", VStr "Anytown")])])
    "user" "address" ["city"] (VStr "Anytown") eq_refl Hown))
    as (n & Hn & _ & _ & _ & Hsurface & Hget).
  exists n. split; [exact Hn|]. split; [exact Hsurface|exact Hget].
Defined.

(** C3 as stated fails in two ways.  For a state property named like a
    member of the store object: over [{extend: 1}] the path [extend] is
    reachable in the initial state, and the store holds its [extend] method
    there, not an accessor.  And at a path whose value is no object: over
    [{count: 10}] the accessor at [count] offers get, set and use, and no
    assign. *)
Lemma state_property_named_extend_has_no_accessor :
  let w := createStore (VObj [("extend", VNum 1)]) "shadowed" in
  let counter := createStore (VObj [("count", VNum 10)]) "counter" in
  pathValue (VObj [("extend", VNum 1)]) ["extend"] = Some (VNum 1) ∧
  api w !! "extend" = Some MExtend ∧
  surface MExtend = [] ∧
  accessorAt (api w) ["extend"] = None ∧
  pathValue (VObj [("count", VNum 10)]) ["count"] = Some (VNum 10) ∧
  exists n,
    accessorAt (api counter) ["count"] = Some n ∧
    surface (MNode n) = ["get"; "set"; "use"] ∧
    ("assign" ∉ surface (MNode n)).
Proof.
  split_and!; try reflexivity.
  eexists. split_and!; [reflexivity|reflexivity|].
  by apply (bool_decide_unpack _).
Qed.

(** ** [assign] *)






(** ** The initial state of a local store *)

(** C8.  With an object as global initial state, the local store of a
    [LocalProvider] starts from the global initial state overridden by the
    own properties of [initialValue]: a property present in [initialValue]
    has the value given there, any other property has its global initial
    value; for an [initialValue] that is an object, the local state is the
    global properties followed by the given ones.  An omitted
    [initialValue] defaults to [{}], and the local store then starts equal
    to the global initial state.  The store object made for the provider
    reads that state: its [get], unless a state property of that name
    shadows it, and the accessor of every property of the merged state. *)
Theorem LocalProvider_merges_initialValue
    (fields given : list (string * Value)) (name : string) (ops : list Op)
    (initialValue : option Value) (ctx : Context) :
  let w := run ops (createStore (VObj fields) name) in
  let provided iv := LocalProvider iv ctx w in
  let localState iv := stateOf (stores (provided iv).1) (localInst w) in
  let created :=
    (createInnerStore name (mergedInitialState (VObj fields) initialValue)
       (stores w)).2 in
  (exists merged,
     localState initialValue = Some (VObj merged) ∧
     (forall k,
        lookupLast k merged =
        match initialValue with
        | None | Some VUndefined => lookupLast k fields
        | Some v =>
            match lookupLast k (ownProps v) with
            | Some x => Some x
            | None => lookupLast k fields
            end
        end) ∧
     head (provided initialValue).2
       = Some (applyExtensions (extensions w) created) ∧
     (lookupLast "get" merged = None ->
      created !! "get" = Some (MGet (localEnv initialValue w))) ∧
     accessorGet (MGet (localEnv initialValue w)) (stores (provided initialValue).1)
       = Some (VObj merged) ∧
     (forall k v,
        lookupLast k merged = Some v ->
        exists n,
          created !! k = Some (MNode n) ∧
          nodeGet n (stores (provided initialValue).1) = Some v)) ∧
  localState (Some (VObj given)) = Some (VObj (fields ++ given)) ∧
  localState None = Some (VObj fields).
Proof.
  intros w provided localState created.
  unfold localState, provided, created.
  assert (Hinit : initialState w = VObj fields) by apply run_initialState.
  assert (Hname : storeName w = name) by apply run_storeName.
  split_and!.
  - rewrite stateOf_localInst, Hinit.
    exists (fields ++ ownProps (localInitialValue initialValue)).
    split_and!.
    + done.
    + intros k. rewrite lookupLast_app.
      destruct initialValue as [[]|]; try done.
    + simpl. by rewrite Hname, Hinit.
    + intros Hget. unfold localEnv. rewrite Hname, Hinit.
      rewrite createInnerStore_lookup.
      cbn [mergedInitialState isObject spread2 getProp ownProps].
      by rewrite Hget.
    + cbn [accessorGet localEnv innerEnv env_inst createVanillaStore snd].
      pose proof (stateOf_localInst initialValue ctx w) as H.
      rewrite Hinit in H. exact H.
    + intros k v Hk. eexists.
      rewrite createInnerStore_lookup. cbn [mergedInitialState isObject spread2 getProp ownProps].
      rewrite Hk. split; [reflexivity|].
      unfold nodeGet. rewrite node_inst_generateNode, node_path_generateNode.
      pose proof (stateOf_localInst initialValue ctx w) as H.
      rewrite Hinit in H. unfold localInst in H. rewrite H.
      cbn [mergedInitialState isObject spread2 pathValue getProp ownProps].
      by rewrite Hk.
  - by rewrite stateOf_localInst, Hinit.
  - rewrite stateOf_localInst, Hinit.
    unfold mergedInitialState, spread2. simpl. by rewrite app_nil_r.
Qed.

(** ** Computed properties *)

Lemma callAction_Some w call w' :
  callAction w call = Some w' ->
  exists st, w' = withStores w st.
Proof.
  unfold callAction. destruct (api w !! call.1) as [[]|]; try done.
  destruct (run0 call.2 (stores w)) as [st|]; [|done].
  intros [= <-]. by exists st.
Qed.

Lemma callActions_snoc w calls call :
  callActions w (calls ++ [call]) =
  callActions w calls ≫= fun w' => callAction w' call.
Proof. unfold callActions. by rewrite foldl_app. Qed.

Lemma api_callActions w calls w' :
  callActions w calls = Some w' -> api w' = api w.
Proof.
  revert w'. induction calls as [|call calls IH] using rev_ind; intros w'.
  - by intros [= <-].
  - rewrite callActions_snoc.
    destruct (callActions w calls) as [w0|]; [|done]. cbn [mbind option_bind].
    intros [st ->]%callAction_Some. cbn [withStores api]. by apply IH.
Qed.

Lemma api_extend_second builder1 builder2 w :
  extensions w = [builder1] ->
  api (extend builder2 w) =
    assignMembers (assignMembers (api w) (builder1 (api w)))
      (builder2 (assignMembers (api w) (builder1 (api w)))).
Proof.
  intros H. unfold extend. cbn [api]. rewrite H.
  unfold assignMembers at 1. by rewrite (idemp_L (∪)).
Qed.

Lemma api_actions_computed initialState0 name cb acts k :
  let w1 := computed cb (createStore initialState0 name) in
  let store := assignMembers (api w1) (computedBuilder cb (api w1)) in
  acts store !! k = None ->
  api (actions acts w1) !! k =
    match cb (api w1) !! k with
    | Some derive => Some (MComputed derive)
    | None => api w1 !! k
    end.
Proof.
  intros w1 store Hacts. unfold actions.
  rewrite (api_extend_second (computedBuilder cb)) by done.
  fold store. clearbody w1. unfold assignMembers at 1.
  rewrite lookup_union, Hacts, (left_id None _).
  unfold store, assignMembers. rewrite lookup_union.
  unfold computedBuilder. rewrite lookup_fmap.
  destruct (cb (api w1) !! k); simpl; [|by rewrite (left_id None _)].
  by destruct (api w1 !! k).
Qed.

Lemma bump_count store d st c :
  store !! "count"
    = Some (MNode (MkNode globalInst ["count"] ["get"; "set"; "use"] [])) ->
  stateOf st globalInst = Some (VObj [("count", VNum c)]) ->
  safeInteger (c + d) = true ->
  exists st',
    bump store d st = Some st' ∧
    stateOf st' globalInst = Some (VObj [("count", VNum (c + d))]).
Proof.
  intros Hnode Hstate Hsafe. unfold bump. rewrite Hnode.
  unfold nodeGet. cbn [node_inst node_path]. rewrite Hstate.
  cbn [pathValue getProp lookupLast]. rewrite decide_True by done.
  rewrite jsAdd_safe by done. eexists. split; [done|].
  unfold nodeSet. cbn [node_inst node_path].
  eapply stateOf_setState_eq; [done|]. reflexivity.
Qed.

Lemma counter_state count steps :
  safeRun count steps = true ->
  exists w,
    callActions (countStore count) (counterCall <$> steps) = Some w ∧
    stateOf (stores w) globalInst
      = Some (VObj [("count", VNum (countAfter count steps))]).
Proof.
  induction steps as [|up steps IH] using rev_ind; intros Hsafe.
  - by eexists.
  - apply safeRun_snoc in Hsafe as [Hsteps Hlast].
    destruct (IH Hsteps) as (w & Hw & Hstate).
    assert (Hstep : exists st',
      callAction w (counterCall up) = Some (withStores w st') ∧
      stateOf st' globalInst
        = Some (VObj [("count", VNum (countAfter count (steps ++ [up])))])).
    { rewrite countAfter_snoc in *.
      unfold callAction. rewrite (api_callActions _ _ _ Hw).
      destruct up; cbn [counterCall fst snd].
      - change (api (countStore count) !! "increment") with
          (Some (MFunction (fun _ st =>
             bump (assignMembers (api (computed doubledCallback
                     (createStore (VObj [("count", VNum count)]) "countStore")))
                   (computedBuilder doubledCallback
                      (api (computed doubledCallback
                         (createStore (VObj [("count", VNum count)]) "countStore")))))
                  1 st))).
        cbv beta.
        match goal with
        | |- context [bump ?store _ _] =>
            destruct (bump_count store 1 (stores w) (countAfter count steps))
              as (st' & -> & Hst'); [reflexivity|done|done|]
        end.
        by exists st'.
      - change (api (countStore count) !! "decrement") with
          (Some (MFunction (fun _ st =>
             bump (assignMembers (api (computed doubledCallback
                     (createStore (VObj [("count", VNum count)]) "countStore")))
                   (computedBuilder doubledCallback
                      (api (computed doubledCallback
                         (createStore (VObj [("count", VNum count)]) "countStore")))))
                  (-1) st))).
        cbv beta.
        match goal with
        | |- context [bump ?store _ _] =>
            destruct (bump_count store (-1) (stores w) (countAfter count steps))
              as (st' & -> & Hst'); [reflexivity|done|done|]
        end.
        by exists st'. }
    destruct Hstep as (st' & Hcall & Hst').
    exists (withStores w st'). split; [|done].
    rewrite fmap_app. change (counterCall <$> [up]) with [counterCall up].
    by rewrite callActions_snoc, Hw.
Qed.

Lemma counter_reads count steps :
  safeRun count steps = true ->
  exists w,
    callActions (countStore count) (counterCall <$> steps) = Some w ∧
    readAccessor "count" w = Some (VNum (countAfter count steps)) ∧
    readAccessor "doubled" w = Some (VNum (countAfter count steps * 2)).
Proof.
  intros Hsafe. destruct (counter_state count steps Hsafe) as (w & Hw & Hstate).
  exists w. split; [done|].
  apply safeRun_last in Hsafe.
  unfold readAccessor. rewrite (api_callActions _ _ _ Hw). split.
  - change (api (countStore count) !! "count")
      with (Some (MNode (MkNode globalInst ["count"] ["get"; "set"; "use"] []))).
    cbn [accessorGet]. unfold nodeGet. cbn [node_inst node_path].
    rewrite Hstate. cbn [pathValue getProp lookupLast].
    by rewrite decide_True.
  - change (api (countStore count) !! "doubled")
      with (Some (MComputed (fun st =>
              match readNum (api (computed doubledCallback
                 (createStore (VObj [("count", VNum count)]) "countStore")))
                "count" st with
              | Some c => VNum <$> jsMul c 2
              | None => None
              end))).
    cbn [accessorGet]. unfold readNum.
    change (api (computed doubledCallback
              (createStore (VObj [("count", VNum count)]) "countStore")) !! "count")
      with (Some (MNode (MkNode globalInst ["count"] ["get"; "set"; "use"] []))).
    cbn [accessorGet]. unfold nodeGet. cbn [node_inst node_path].
    rewrite Hstate. cbn [pathValue getProp lookupLast].
    rewrite decide_True by done. by rewrite jsMul_two.
Qed.

(** C4.  The accessor of a computed property holds the derivation its
    callback returned for the store, and [get] runs it on the state as it
    is at the call: after any calls of the store's actions, [get] returns
    the derivation's value on the current state.  For the counter of the
    tests, with [doubled] as [count * 2]: after any run of [increment] and
    [decrement] in which the counts stay safe integers, every call
    returns, [count.get()] is the count reached and [doubled.get()] is
    twice that; from 10, one [increment] gives 11 and 22. *)
Theorem computed_get_is_recalculated
    (initialState0 : Value) (name : string)
    (computedCallback : gmap string Member -> gmap string (Stores -> option Value))
    (builder : Builder) (calls : list (string * Value)) (property : string)
    (derive : Stores -> option Value) (count : Z) (steps : list bool) :
  let w1 := computed computedCallback (createStore initialState0 name) in
  let w2 := actions builder w1 in
  computedCallback (api w1) !! property = Some derive ->
  builder (assignMembers (api w1) (computedBuilder computedCallback (api w1)))
    !! property = None ->
  safeRun count steps = true ->
  api w2 !! property = Some (MComputed derive) ∧
  (forall w, callActions w2 calls = Some w ->
     api w !! property = Some (MComputed derive) ∧
     readAccessor property w = derive (stores w)) ∧
  (exists counter,
     callActions (countStore count) (counterCall <$> steps) = Some counter ∧
     readAccessor "count" counter = Some (VNum (countAfter count steps)) ∧
     readAccessor "doubled" counter = Some (VNum (countAfter count steps * 2))) ∧
  readAccessor "doubled" (countStore 10) = Some (VNum 20) ∧
  (exists counter,
     callAction (countStore 10) ("increment", VUndefined) = Some counter ∧
     readAccessor "count" counter = Some (VNum 11) ∧
     readAccessor "doubled" counter = Some (VNum 22)).
Proof.
  intros w1 w2 Hderive Hfree Hsafe.
  assert (Hapi : api w2 !! property = Some (MComputed derive)).
  { subst w2 w1. rewrite api_actions_computed by done. by rewrite Hderive. }
  split_and!.
  - done.
  - intros w Hw. rewrite <- (api_callActions _ _ _ Hw) in Hapi.
    split; [done|]. unfold readAccessor. by rewrite Hapi.
  - by apply counter_reads.
  - reflexivity.
  - eexists. split_and!; reflexivity.
Qed.

Lemma computed_get_is_recalculated_witness :
  let initial := VObj [("count", VNum 10)] in
  let w1 := computed doubledCallback (createStore initial "countStore") in
  let derive := fun st =>
    match readNum (api w1) "count" st with
    | Some c => VNum <$> jsMul c 2
    | None => None
    end in
  doubledCallback (api w1) !! "doubled" = Some derive ∧
  counterActions (assignMembers (api w1) (computedBuilder doubledCallback (api w1)))
    !! "doubled" = None ∧
  safeRun 10 [true; true; false] = true ∧
  exists counter,
    callActions (countStore 10) (counterCall <$> [true; true; false]) = Some counter ∧
    readAccessor "count" counter = Some (VNum 11) ∧
    readAccessor "doubled" counter = Some (VNum 22).
Proof.
  split; [reflexivity|]. split; [reflexivity|]. split; [reflexivity|].
  exact (proj1 (proj2 (proj2 (computed_get_is_recalculated
    (VObj [("count", VNum 10)]) "countStore" doubledCallback counterActions
    [("increment", VUndefined)] "doubled"
    (fun st =>
       match readNum (api (computed doubledCallback
                  (createStore (VObj [("count", VNum 10)]) "countStore")))
               "count" st with
       | Some c => VNum <$> jsMul c 2
       | None => None
       end)
    10%Z [true; true; false] eq_refl eq_refl eq_refl)))).
Defined.

(** ** The registry of builders that act on the store *)

Lemma live_applyExtensions_snoc target exts ext store st :
  Live.applyExtensions target (exts ++ [ext]) store st =
  Live.applyExtension target (Live.applyExtensions target exts store st)
    (length exts, ext).
Proof.
  unfold Live.applyExtensions. rewrite imap_app, foldl_app. simpl.
  by rewrite Nat.add_0_r.
Qed.

(** [applyExtensions] logs one call per builder of the registry, in the
    order of the registry. *)
Lemma live_logged target exts store st :
  Live.logged (Live.applyExtensions target exts store st) =
  (fun i => (i, target)) <$> seq 0 (length exts).
Proof.
  induction exts as [|ext exts IH] using rev_ind; [done|].
  rewrite live_applyExtensions_snoc. cbn [Live.applyExtension Live.logged fst].
  rewrite IH, length_app. simpl. by rewrite Nat.add_1_r, seq_S, fmap_app.
Qed.

(** For builders that only return members, [Live.applyExtensions] is
    [applyExtensions]: the same store object, no state touched, and the
    calls logged are the [applications]. *)
Lemma live_applyExtensions_returning target exts store st :
  Live.applyExtensions target (Live.returning <$> exts) store st =
  Live.mkReplayed (applyExtensions exts store) st (applications exts target).
Proof.
  induction exts as [|ext exts IH] using rev_ind; [done|].
  rewrite fmap_app. change (Live.returning <$> [ext]) with [Live.returning ext].
  rewrite live_applyExtensions_snoc, IH, applyExtensions_snoc.
  unfold Live.applyExtension, Live.assigned, Live.returning. simpl.
  rewrite length_fmap. f_equal.
  rewrite !applications_seq, length_app. simpl.
  by rewrite Nat.add_1_r, seq_S, fmap_app.
Qed.

Lemma live_extend_returning builder w :
  Live.extend (Live.returning builder) (liftWorld w) = liftWorld (extend builder w).
Proof.
  unfold Live.extend, extend, liftWorld. simpl.
  change [Live.returning builder] with (Live.returning <$> [builder]).
  rewrite <- fmap_app.
  by rewrite live_applyExtensions_returning.
Qed.

Lemma live_LocalProvider_returning initialValue ctx w :
  Live.LocalProvider initialValue ctx (liftWorld w) =
  (liftWorld (LocalProvider initialValue ctx w).1,
   (LocalProvider initialValue ctx w).2).
Proof.
  unfold Live.LocalProvider, LocalProvider, liftWorld. simpl.
  by rewrite live_applyExtensions_returning.
Qed.

Lemma live_sound_call st c : sound st -> sound (Live.call st c).
Proof.
  intros H. destruct c; simpl.
  - by apply sound_setState.
  - by apply sound_setState.
  - by apply sound_setState.
  - by apply sound_nodeAssign.
Qed.

Lemma live_length_call st c :
  length (current (Live.call st c)) = length (current st).
Proof.
  destruct c; simpl.
  - apply length_current_setState.
  - apply length_current_setState.
  - apply length_current_setState.
  - apply length_current_nodeAssign.
Qed.

Lemma live_sound_runCalls cs st : sound st -> sound (Live.runCalls cs st).
Proof.
  intros H. induction cs as [|c cs IH] using rev_ind; [done|].
  unfold Live.runCalls. rewrite foldl_app. by apply live_sound_call.
Qed.

Lemma live_length_runCalls cs st :
  length (current (Live.runCalls cs st)) = length (current st).
Proof.
  induction cs as [|c cs IH] using rev_ind; [done|].
  unfold Live.runCalls. rewrite foldl_app. simpl.
  by rewrite live_length_call.
Qed.

Lemma live_sound_applyExtensions target exts store st :
  sound st -> sound (Live.after (Live.applyExtensions target exts store st)).
Proof.
  intros H. induction exts as [|ext exts IH] using rev_ind; [done|].
  rewrite live_applyExtensions_snoc. by apply live_sound_runCalls.
Qed.

Lemma live_length_applyExtensions target exts store st :
  length (current (Live.after (Live.applyExtensions target exts store st))) =
  length (current st).
Proof.
  induction exts as [|ext exts IH] using rev_ind; [done|].
  rewrite live_applyExtensions_snoc. cbn [Live.applyExtension Live.after].
  by rewrite live_length_runCalls.
Qed.

Lemma live_run_snoc ops op w :
  Live.run (ops ++ [op]) w = Live.step (Live.run ops w) op.
Proof. unfold Live.run. by rewrite foldl_app. Qed.

Lemma live_run_storeName ops w :
  Live.storeName (Live.run ops w) = Live.storeName w.
Proof.
  induction ops as [|op ops IH] using rev_ind; [done|].
  rewrite live_run_snoc. by destruct op.
Qed.

Lemma live_run_initialState ops w :
  Live.initialState (Live.run ops w) = Live.initialState w.
Proof.
  induction ops as [|op ops IH] using rev_ind; [done|].
  rewrite live_run_snoc. by destruct op.
Qed.

Lemma live_registered_app ops1 ops2 :
  Live.registered (ops1 ++ ops2) = Live.registered ops1 ++ Live.registered ops2.
Proof. apply omap_app. Qed.

Lemma live_run_extensions ops w :
  Live.extensions (Live.run ops w) = Live.extensions w ++ Live.registered ops.
Proof.
  induction ops as [|op ops IH] using rev_ind.
  - simpl. by rewrite app_nil_r.
  - rewrite live_run_snoc, live_registered_app, app_assoc, <- IH.
    destruct op; simpl; by rewrite ?app_nil_r.
Qed.

Lemma live_extensions_createStore initialState0 name ops :
  Live.extensions (Live.run ops (Live.createStore initialState0 name))
  = Live.registered ops.
Proof. by rewrite live_run_extensions. Qed.

Lemma live_stores_LocalProvider initialValue ctx w :
  Live.stores (Live.LocalProvider initialValue ctx w).1 =
  Live.after
    (Live.applyExtensions (Live.localInst w) (Live.extensions w)
       (createInnerStore (Live.storeName w)
          (mergedInitialState (Live.initialState w) initialValue)
          (Live.stores w)).2
       (createVanillaStore (Live.stores w)
          (mergedInitialState (Live.initialState w) initialValue)).1).
Proof. done. Qed.

Lemma live_api_LocalProvider initialValue ctx w :
  Live.api (Live.LocalProvider initialValue ctx w).1 = Live.api w.
Proof. done. Qed.

Lemma live_sound_step w op :
  sound (Live.stores w) -> sound (Live.stores (Live.step w op)).
Proof.
  intros H. destruct op; cbn [Live.step].
  - by apply live_sound_applyExtensions.
  - by apply live_sound_call.
  - rewrite live_stores_LocalProvider.
    by apply live_sound_applyExtensions, sound_createVanillaStore.
Qed.

Lemma live_sound_run ops w :
  sound (Live.stores w) -> sound (Live.stores (Live.run ops w)).
Proof.
  intros H. induction ops as [|op ops IH] using rev_ind; [done|].
  rewrite live_run_snoc. by apply live_sound_step.
Qed.

Lemma live_sound_createStore initialState0 name :
  sound (Live.stores (Live.createStore initialState0 name)).
Proof. exact (sound_createStore initialState0 name). Qed.

Lemma live_length_step w op :
  length (current (Live.stores (Live.step w op))) =
  length (current (Live.stores w)) +
  match op with Live.OpRender _ _ => 1 | _ => 0 end.
Proof.
  destruct op; cbn [Live.step].
  - cbn [Live.extend Live.stores]. rewrite live_length_applyExtensions. lia.
  - cbn [Live.withStores Live.stores]. rewrite live_length_call. lia.
  - rewrite live_stores_LocalProvider, live_length_applyExtensions.
    simpl. by rewrite length_app.
Qed.

Lemma live_length_run ops w :
  length (current (Live.stores w)) <=
  length (current (Live.stores (Live.run ops w))).
Proof.
  induction ops as [|op ops IH] using rev_ind; [done|].
  rewrite live_run_snoc, live_length_step. lia.
Qed.

Lemma live_api_createStore initialState0 name :
  Live.api (Live.createStore initialState0 name) = api (createStore initialState0 name).
Proof.
  unfold Live.createStore, createStore.
  by destruct (createInnerStore name initialState0 noStores).
Qed.

(** *** The names on a store object *)

Lemma live_dom_applyExtensions target exts store st :
  Forall Live.steady exts ->
  dom (Live.object (Live.applyExtensions target exts store st)) =
  dom store ∪ ⋃ (Live.addedNames <$> exts).
Proof.
  induction exts as [|ext exts IH] using rev_ind; intros Hsteady.
  - simpl. by rewrite (right_id_L ∅ (∪)).
  - apply Forall_app in Hsteady as [Hexts Hext].
    rewrite Forall_singleton in Hext.
    rewrite live_applyExtensions_snoc. cbn [Live.applyExtension Live.object snd].
    rewrite Hext, IH by done.
    rewrite fmap_app, union_list_app_L. simpl.
    by rewrite (right_id_L ∅ (∪)), (assoc_L (∪)).
Qed.

Lemma live_dom_api initialState0 name ops :
  Forall Live.steady (Live.registered ops) ->
  dom (Live.api (Live.run ops (Live.createStore initialState0 name))) =
  dom (api (createStore initialState0 name)) ∪ ⋃ (Live.addedNames <$> Live.registered ops).
Proof.
  induction ops as [|op ops IH] using rev_ind; intros Hsteady.
  - change (Live.run [] ?w) with w. rewrite live_api_createStore. simpl.
    by rewrite (right_id_L ∅ (∪)).
  - rewrite live_registered_app in Hsteady.
    pose proof Hsteady as Hall.
    apply Forall_app in Hsteady as [Hops Hop].
    rewrite live_run_snoc, live_registered_app.
    destruct op; cbn [Live.step].
    + cbn [Live.extend Live.api]. unfold assignMembers at 1.
      rewrite (idemp_L (∪)), live_extensions_createStore.
      rewrite live_dom_applyExtensions by done.
      rewrite IH by done. rewrite !fmap_app, !union_list_app_L.
      rewrite <- !(assoc_L (∪)). f_equal.
      rewrite (assoc_L (∪)), (idemp_L (∪)). done.
    + cbn [Live.withStores Live.api]. rewrite IH by done.
      simpl. by rewrite app_nil_r.
    + rewrite live_api_LocalProvider, IH by done.
      simpl. by rewrite app_nil_r.
Qed.

Lemma dom_api_createStore initialState0 name :
  dom (api (createStore initialState0 name)) =
  dom (createInnerStore name initialState0 noStores).2 ∪ ownNames.
Proof.
  unfold createStore.
  destruct (createInnerStore name initialState0 noStores) as [st globalStore].
  cbn [api snd]. unfold assignMembers, ownNames.
  rewrite dom_union_L, !dom_insert_L, dom_singleton_L. set_solver.
Qed.

(** ** The surface of a local store *)

Lemma steady_returning (builder : Builder) (names : gset string) :
  (forall store, dom (builder store) = names) ->
  Live.steady (Live.returning builder).
Proof.
  intros H store st.
  unfold Live.addedNames, Live.assigned, Live.returning, assignMembers. simpl.
  rewrite !dom_union_L, !H, dom_empty_L, (right_id_L ∅ (∪)).
  apply (comm_L (∪)).
Defined.

Lemma steady_computedBuilder_doubled :
  Live.steady (Live.returning (computedBuilder doubledCallback)).
Proof.
  apply (steady_returning _ {[ "doubled" ]}). intros store.
  unfold computedBuilder, doubledCallback.
  by rewrite dom_fmap_L, dom_singleton_L.
Defined.

Lemma steady_counterActions : Live.steady (Live.returning counterActions).
Proof.
  apply (steady_returning _ {[ "increment"; "decrement" ]}). intros store.
  unfold counterActions. by rewrite dom_insert_L, dom_singleton_L.
Defined.

(** C1, as the code has it.  When every registered builder adds the same
    member names to whatever store it is applied to and removes none (the
    names it writes onto the store object or returns depend neither on the
    store nor on the state), the store that [useLocalStore] returns under a
    [LocalProvider] defines every name the global store has from its
    generated accessors and from the builders registered when the provider
    is rendered; of the names of the global store, only [extend],
    [LocalProvider] and [useLocalStore] can be missing from it. *)
Theorem local_store_has_the_global_surface
    (initialState0 : Value) (name : string) (ops : list Live.Op)
    (initialValue : option Value) (ctx : Context) :
  Forall Live.steady (Live.registered ops) ->
  let w := Live.run ops (Live.createStore initialState0 name) in
  exists localStore,
    useLocalStore (Live.LocalProvider initialValue ctx w).2 = inl localStore ∧
    (forall k, is_Some ((createInnerStore name initialState0 noStores).2 !! k) ->
       is_Some (localStore !! k)) ∧
    (forall k builder, builder ∈ Live.registered ops ->
       k ∈ Live.addedNames builder -> is_Some (localStore !! k)) ∧
    (forall k, is_Some (Live.api w !! k) -> k ∉ ownNames -> is_Some (localStore !! k)).
Proof.
  intros Hsteady w.
  assert (Hexts : Live.extensions w = Live.registered ops)
    by apply live_extensions_createStore.
  assert (Hname : Live.storeName w = name) by apply live_run_storeName.
  assert (Hinit : Live.initialState w = initialState0) by apply live_run_initialState.
  set (created := (createInnerStore name
    (mergedInitialState initialState0 initialValue) (Live.stores w)).2).
  set (st1 := (createVanillaStore (Live.stores w)
    (mergedInitialState initialState0 initialValue)).1).
  exists (Live.object
    (Live.applyExtensions (Live.localInst w) (Live.registered ops) created st1)).
  split.
  { unfold created, st1. rewrite <- Hexts, <- Hname, <- Hinit. done. }
  assert (Hdom : forall k,
    is_Some (Live.object
      (Live.applyExtensions (Live.localInst w) (Live.registered ops) created st1) !! k)
    <-> is_Some (created !! k) ∨ k ∈ ⋃ (Live.addedNames <$> Live.registered ops)).
  { intros k. rewrite <- !elem_of_dom, live_dom_applyExtensions by done.
    apply elem_of_union. }
  assert (Hinner : forall k,
    is_Some ((createInnerStore name initialState0 noStores).2 !! k) ->
    is_Some (created !! k)).
  { intros k Hk. by eapply createInnerStore_surface. }
  split_and!.
  - intros k Hk. apply Hdom. left. by apply Hinner.
  - intros k builder Hin Hk. apply Hdom. right.
    apply elem_of_union_list. exists (Live.addedNames builder). split; [|done].
    apply list_elem_of_fmap. by exists builder.
  - intros k Hk Hown. apply Hdom.
    apply elem_of_dom in Hk. unfold w in Hk.
    rewrite live_dom_api, dom_api_createStore in Hk by done.
    rewrite !elem_of_union in Hk. destruct Hk as [[Hk|Hk]|Hk].
    + left. apply Hinner. by apply elem_of_dom.
    + done.
    + by right.
Qed.

Lemma local_store_has_the_global_surface_witness :
  let ops := [Live.OpExtend (Live.returning (computedBuilder doubledCallback));
              Live.OpExtend (Live.returning counterActions)] in
  let w := Live.run ops (Live.createStore (VObj [("count", VNum 10)]) "countStore") in
  Forall Live.steady (Live.registered ops) ∧
  exists localStore,
    useLocalStore (Live.LocalProvider None [] w).2 = inl localStore ∧
    is_Some (localStore !! "doubled") ∧
    is_Some (localStore !! "count").
Proof.
  assert (H : Forall Live.steady
    (Live.registered
       [Live.OpExtend (Live.returning (computedBuilder doubledCallback));
        Live.OpExtend (Live.returning counterActions)])).
  { apply Forall_cons. split; [exact steady_computedBuilder_doubled|].
    apply Forall_cons. split; [exact steady_counterActions|]. apply Forall_nil_2. }
  split; [exact H|].
  destruct (local_store_has_the_global_surface
    (VObj [("count", VNum 10)]) "countStore"
    [Live.OpExtend (Live.returning (computedBuilder doubledCallback));
     Live.OpExtend (Live.returning counterActions)]
    None [] H) as (localStore & Huse & Hinner & Hbuilt & _).
  exists localStore. split; [exact Huse|]. split.
  - apply (Hbuilt "doubled" (Live.returning (computedBuilder doubledCallback))).
    + apply list_elem_of_here.
    + by apply (bool_decide_unpack _).
  - apply Hinner. eexists. reflexivity.
Defined.

(** C1 as stated fails for a builder whose members depend on the store it
    is given.  [onlyWithProvider] returns [reset] for the global store,
    which has a [LocalProvider] member, and nothing for a local store, which
    has none; [writesWithProvider] returns nothing at all and writes
    [reset] onto the store object it is given, the global one only.  Under
    either, the global store has a member [reset] that the local store
    lacks. *)
Lemma store_dependent_builder_is_not_replayed :
  let created := Live.createStore (VObj [("count", VNum 0)]) "count" in
  let w := Live.extend Live.onlyWithProvider created in
  let w' := Live.extend Live.writesWithProvider created in
  Live.extensions w = [Live.onlyWithProvider] ∧
  is_Some (Live.api w !! "reset") ∧
  ("reset" ∉ ownNames) ∧
  (exists localStore,
     useLocalStore (Live.LocalProvider None [] w).2 = inl localStore ∧
     localStore !! "reset" = None) ∧
  Live.extensions w' = [Live.writesWithProvider] ∧
  (forall store st, Live.returned (Live.writesWithProvider store st) = ∅) ∧
  is_Some (Live.api w' !! "reset") ∧
  (exists localStore,
     useLocalStore (Live.LocalProvider None [] w').2 = inl localStore ∧
     localStore !! "reset" = None).
Proof.
  split_and!.
  - reflexivity.
  - eexists. vm_compute. reflexivity.
  - by apply (bool_decide_unpack _).
  - eexists. split; [reflexivity|]. vm_compute. reflexivity.
  - reflexivity.
  - reflexivity.
  - eexists. vm_compute. reflexivity.
  - eexists. split; [reflexivity|]. vm_compute. reflexivity.
Qed.

(** ** Local and global state *)

Lemma live_untouched_applyExtensions names target exts store st k :
  Forall (Live.untouched names) exts -> k ∈ names ->
  Live.object (Live.applyExtensions target exts store st) !! k = store !! k.
Proof.
  intros Hexts Hk. induction exts as [|ext exts IH] using rev_ind; [done|].
  apply Forall_app in Hexts as [Hexts Hext]. rewrite Forall_singleton in Hext.
  rewrite live_applyExtensions_snoc. cbn [Live.applyExtension Live.object snd].
  rewrite Hext by done. by apply IH.
Qed.





Lemma untouched_counterActions :
  Live.untouched ["set"; "assign"] (Live.returning counterActions).
Proof.
  intros store st k Hk.
  unfold Live.assigned, Live.returning, assignMembers. simpl.
  rewrite lookup_union.
  rewrite !elem_of_cons in Hk. destruct Hk as [->|[->|Hnil]].
  - change (counterActions store !! "set") with (@None Member).
    by rewrite (left_id None _).
  - change (counterActions store !! "assign") with (@None Member).
    by rewrite (left_id None _).
  - by apply elem_of_nil in Hnil.
Defined.



(** * Further properties of the factory *)

(** ** How often builders run *)

Lemma count_applications (i inst inst' a n : nat) :
  length (filter (fun entry => entry = (i, inst))
            ((fun j => (j, inst')) <$> seq a n)) =
  if decide (inst = inst' ∧ a <= i < a + n) then 1 else 0.
Proof.
  revert a. induction n as [|n IH]; intros a; simpl.
  - case_decide; [lia|done].
  - rewrite filter_cons. destruct (decide ((a, inst') = (i, inst))) as [[= -> ->]|Hne].
    + simpl. rewrite IH. rewrite decide_False by lia. by rewrite decide_True by lia.
    + rewrite IH. repeat case_decide; try done; try lia.
      destruct Hne. f_equal; [lia|]. naive_solver.
Qed.

Lemma timesApplied_app (i inst : nat) (log1 log2 : list (nat * nat)) :
  length (filter (fun entry => entry = (i, inst)) (log1 ++ log2)) =
  length (filter (fun entry => entry = (i, inst)) log1) +
  length (filter (fun entry => entry = (i, inst)) log2).
Proof. by rewrite filter_app, length_app. Qed.

(** The stores the log speaks of exist. *)
Lemma applied_targets initialState0 name ops i inst :
  (i, inst) ∈ Live.applied (Live.run ops (Live.createStore initialState0 name)) ->
  inst < length (current (Live.stores (Live.run ops (Live.createStore initialState0 name)))).
Proof.
  induction ops as [|op ops IH] using rev_ind.
  - by intros ?%elem_of_nil.
  - rewrite live_run_snoc.
    pose proof (live_sound_run ops _ (live_sound_createStore initialState0 name))
      as [_ Hpos].
    rewrite live_length_step.
    destruct op; cbn [Live.step].
    + cbn [Live.extend Live.applied]. rewrite live_logged.
      intros [Hin|Hin]%elem_of_app; [apply IH in Hin; lia|].
      apply list_elem_of_fmap in Hin as (j & [= _ ->] & _). unfold globalInst. lia.
    + intros Hin. apply IH in Hin. lia.
    + change (Live.applied (Live.LocalProvider initialValue ctx ?w).1)
        with (Live.applied w ++
              Live.logged (Live.applyExtensions (Live.localInst w) (Live.extensions w)
                (createInnerStore (Live.storeName w)
                   (mergedInitialState (Live.initialState w) initialValue)
                   (Live.stores w)).2
                (createVanillaStore (Live.stores w)
                   (mergedInitialState (Live.initialState w) initialValue)).1)).
      rewrite live_logged.
      intros [Hin|Hin]%elem_of_app.
      * apply IH in Hin. lia.
      * apply list_elem_of_fmap in Hin as (j & [= _ ->] & _).
        unfold Live.localInst. lia.
Qed.

Lemma timesApplied_fresh initialState0 name ops i inst :
  length (current (Live.stores (Live.run ops (Live.createStore initialState0 name))))
    <= inst ->
  Live.timesApplied i inst (Live.run ops (Live.createStore initialState0 name)) = 0.
Proof.
  intros Hle. unfold Live.timesApplied.
  destruct (filter _ _) as [|entry rest] eqn:E; [done|].
  assert (Hin : entry ∈ filter (fun entry => entry = (i, inst))
            (Live.applied (Live.run ops (Live.createStore initialState0 name))))
    by (rewrite E; left).
  apply list_elem_of_filter in Hin as [-> Hin].
  apply applied_targets in Hin. lia.
Qed.

(** X1.  Every call of [extend] applies the whole registry to the global
    store again: after a program has registered [n] builders, the builder
    registered as number [i] has been applied [n - i] times to the global
    store.  A local store has every builder applied once, when its
    [LocalProvider] is rendered.  The applications counted are the calls
    [ext(acc)] that [applyExtensions] makes. *)
Theorem builders_are_reapplied_on_every_extend
    (initialState0 : Value) (name : string) (ops : list Live.Op) (i : nat)
    (initialValue : option Value) (ctx : Context) (builder : Live.Builder) :
  let w := Live.run ops (Live.createStore initialState0 name) in
  let n := length (Live.registered ops) in
  Live.timesApplied i globalInst w = n - i ∧
  Live.timesApplied i (Live.localInst w) w = 0 ∧
  Live.timesApplied i (Live.localInst w) (Live.LocalProvider initialValue ctx w).1
    = (if decide (i < n) then 1 else 0) ∧
  Live.timesApplied i globalInst (Live.LocalProvider initialValue ctx w).1 = n - i ∧
  Live.applied (Live.extend builder w) =
    Live.applied w ++
    Live.logged (Live.applyExtensions globalInst (Live.registered ops ++ [builder])
                   (Live.api w) (Live.stores w)) ∧
  length (Live.logged (Live.applyExtensions globalInst (Live.registered ops ++ [builder])
                         (Live.api w) (Live.stores w))) = S n.
Proof.
  intros w n.
  assert (Hrender : forall iv c w0,
    Live.applied (Live.LocalProvider iv c w0).1 =
    Live.applied w0 ++
    ((fun j => (j, Live.localInst w0)) <$> seq 0 (length (Live.extensions w0)))).
  { intros iv c w0. rewrite <- (live_logged (Live.localInst w0) (Live.extensions w0)
      (createInnerStore (Live.storeName w0)
         (mergedInitialState (Live.initialState w0) iv) (Live.stores w0)).2
      (createVanillaStore (Live.stores w0)
         (mergedInitialState (Live.initialState w0) iv)).1).
    done. }
  assert (Hglobal : forall ops,
    Live.timesApplied i globalInst (Live.run ops (Live.createStore initialState0 name))
    = length (Live.registered ops) - i).
  { clear -Hrender. intros ops. induction ops as [|op ops IH] using rev_ind; [done|].
    rewrite live_run_snoc, live_registered_app, length_app.
    pose proof (live_sound_run ops _ (live_sound_createStore initialState0 name))
      as [_ Hpos].
    unfold Live.timesApplied in *.
    destruct op; cbn [Live.step Live.registered omap length];
      rewrite ?Nat.add_0_r; try exact IH.
    - cbn [Live.extend Live.applied]. rewrite timesApplied_app, IH, live_logged.
      rewrite count_applications, live_extensions_createStore, length_app. simpl.
      case_decide; lia.
    - rewrite Hrender, timesApplied_app, IH, count_applications.
      rewrite decide_False; [lia|]. unfold globalInst, Live.localInst. lia. }
  assert (Hfresh : Live.timesApplied i (Live.localInst w) w = 0)
    by (by apply timesApplied_fresh).
  assert (Hexts : Live.extensions w = Live.registered ops)
    by apply live_extensions_createStore.
  split_and!.
  - apply Hglobal.
  - done.
  - unfold Live.timesApplied in *.
    rewrite Hrender, timesApplied_app, Hfresh, count_applications, Hexts.
    fold n. repeat case_decide; try done; lia.
  - pose proof (Hglobal (ops ++ [Live.OpRender initialValue ctx])) as H.
    rewrite live_run_snoc, live_registered_app, length_app in H. simpl in H.
    rewrite Nat.add_0_r in H. exact H.
  - cbn [Live.extend Live.applied]. by rewrite Hexts.
  - rewrite live_logged, length_fmap, length_seq, length_app. simpl. lia.
Qed.

(** ** Members of the global store *)



(** ** Instances *)

Lemma renders_snoc ops op :
  renders (ops ++ [op]) =
  renders ops + match op with OpRender _ _ => 1 | _ => 0 end.
Proof.
  unfold renders. rewrite omap_app, length_app. by destruct op.
Qed.

(** X3.  [createStore] makes one zustand instance and every render of a
    [LocalProvider] makes one more; [extend], [set] and [assign] make
    none.  A program that rendered providers [r] times runs on [1 + r]
    instances. *)
Theorem one_instance_per_render
    (initialState0 : Value) (name : string) (ops : list Op) (builder : Builder)
    (initialValue : option Value) (ctx : Context) :
  let w := run ops (createStore initialState0 name) in
  length (current (stores w)) = 1 + renders ops ∧
  length (current (stores (extend builder w))) = 1 + renders ops ∧
  length (current (stores (LocalProvider initialValue ctx w).1)) = 2 + renders ops.
Proof.
  intros w.
  assert (H : forall ops,
    length (current (stores (run ops (createStore initialState0 name))))
    = 1 + renders ops).
  { clear. intros ops. induction ops as [|op ops IH] using rev_ind; [done|].
    rewrite run_snoc, renders_snoc. destruct op; cbn [step].
    - cbn [extend stores]. lia.
    - cbn [withStores stores]. unfold setState.
      rewrite length_current_setState. lia.
    - cbn [withStores stores]. unfold assign.
      rewrite length_current_setState. lia.
    - cbn [withStores stores]. unfold nodeSet.
      rewrite length_current_setState. lia.
    - cbn [withStores stores]. rewrite length_current_nodeAssign. lia.
    - rewrite stores_LocalProvider. simpl. rewrite length_app. simpl. lia. }
  split_and!.
  - apply H.
  - cbn [extend stores]. apply H.
  - rewrite stores_LocalProvider. cbn [createVanillaStore fst current].
    rewrite length_app. unfold w. rewrite (H ops). simpl. lia.
Qed.


(** ** Action names *)

Lemma append_inv_l (s a b : string) : s +:+ a = s +:+ b -> a = b.
Proof. induction s as [|c s IH]; simpl; [done|]. intros [= H]. by apply IH. Qed.

Lemma calls_setState inst arg label st base :
  stateOf st inst = Some base ->
  calls (immerStoreApi_setState inst arg label st) = calls st ++ [(inst, label)].
Proof.
  intros H. unfold immerStoreApi_setState. rewrite H.
  by destruct (produce base arg).
Qed.

(** X6.  The action name that [set] and [assign] hand to the middleware is
    the caller's when it is a non-empty string; a missing or an empty name
    is replaced by ["@@<store name>/setState"] for [set] and by
    ["@@<store name>/assign"] for [assign].  The two defaults differ and the
    name handed on is never empty. *)
Theorem action_names_fall_back_to_the_store_name
    (e : Env) (fnOrNewValue : SetArg) (state base : Value) (given : string)
    (st : Stores) :
  stateOf st (env_inst e) = Some base ->
  given ≠ EmptyString ->
  let forSet := "@@" +:+ env_name e +:+ "/setState" in
  let forAssign := "@@" +:+ env_name e +:+ "/assign" in
  calls (setState e fnOrNewValue (Some given) st)
    = calls st ++ [(env_inst e, Some given)] ∧
  calls (assign e state (Some given) st)
    = calls st ++ [(env_inst e, Some given)] ∧
  calls (setState e fnOrNewValue None st)
    = calls st ++ [(env_inst e, Some forSet)] ∧
  calls (setState e fnOrNewValue (Some EmptyString) st)
    = calls st ++ [(env_inst e, Some forSet)] ∧
  calls (assign e state None st)
    = calls st ++ [(env_inst e, Some forAssign)] ∧
  calls (assign e state (Some EmptyString) st)
    = calls st ++ [(env_inst e, Some forAssign)] ∧
  forSet ≠ forAssign ∧
  forSet ≠ EmptyString ∧
  forAssign ≠ EmptyString.
Proof.
  intros Hbase Hgiven forSet forAssign.
  unfold setState, assign. rewrite !(calls_setState _ _ _ _ base) by done.
  unfold orElse. rewrite !(decide_False (P := given = EmptyString)) by done.
  split_and!; try done.
  unfold forSet, forAssign. intros H.
  apply append_inv_l, append_inv_l in H. done.
Qed.

Lemma action_names_fall_back_to_the_store_name_witness :
  let w := createStore (VNum 0) "zero" in
  stateOf (stores w) 0 = Some (VNum 0) ∧
  "reset" ≠ EmptyString ∧
  calls (setState (globalEnv w) (NewValue (VNum 1)) None (stores w))
    = [(0, Some "@@zero/setState")].
Proof.
  assert (H : "reset" ≠ EmptyString) by discriminate.
  split; [reflexivity|]. split; [exact H|].
  exact (proj1 (proj2 (proj2 (action_names_fall_back_to_the_store_name
    (globalEnv (createStore (VNum 0) "zero")) (NewValue (VNum 1)) VNull (VNum 0)
    "reset" (stores (createStore (VNum 0) "zero")) eq_refl H)))).
Defined.

(** ** The options *)

(** X7.  The immer settings are shared, and every [createStore] call
    writes them: after a series of calls, auto-freezing is what the last
    call asked for, off when it did not ask, whatever earlier calls asked
    for; the Map and Set plugin is loaded if it was before or if any of the
    calls enabled it, and no call unloads it. *)
Theorem last_createStore_decides_autoFreeze
    (s : ImmerSettings) (earlier : list (option ImmerOptions))
    (last : option ImmerOptions) :
  let s' := foldl (fun s immer => configureImmer immer s) s (earlier ++ [last]) in
  autoFreeze s' = default false (last ≫= enabledAutoFreeze) ∧
  autoFreeze (configureImmer None s) = false ∧
  mapSetEnabled s' =
    mapSetEnabled s ||
    existsb (fun immer => default false (immer ≫= enableMapSet)) (earlier ++ [last]).
Proof.
  intros s'. split_and!.
  - unfold s'. rewrite foldl_app. simpl. unfold configureImmer.
    by destruct (default false (last ≫= enableMapSet)).
  - done.
  - unfold s'. generalize (earlier ++ [last]). clear. intros calls.
    revert s. induction calls as [|immer calls IH]; intros s; simpl.
    + by rewrite orb_false_r.
    + rewrite IH. unfold configureImmer.
      destruct (default false (immer ≫= enableMapSet)); simpl.
      * by rewrite orb_true_r.
      * done.
Qed.

Lemma omap_givenOf_given {M : Type} (l : list M) :
  omap givenOf (MwGiven <$> l) = l.
Proof. induction l as [|m l IH]; [done|]. csimpl. by rewrite IH. Qed.

Lemma omap_devtoolsNameOf_given {M : Type} (l : list M) :
  omap devtoolsNameOf (MwGiven <$> l) = [].
Proof. induction l as [|m l IH]; [done|]. by csimpl. Qed.

Lemma omap_persistNameOf_given {M : Type} (l : list M) :
  omap persistNameOf (MwGiven <$> l) = [].
Proof. induction l as [|m l IH]; [done|]. by csimpl. Qed.

(** X8.  In the [middlewares] array the immer middleware comes first and
    [createVanillaStore] last; the middlewares of the options stand between
    them in the order given, before the persist and the devtools wrapper.
    The devtools wrapper is always labelled with the store's name, whatever
    [devtools.name] says; the persist wrapper keeps [persist.name] and
    falls back to the store's name. *)
Theorem middlewares_are_ordered_and_named
    (M : Type) (name : string) (options : CreateStoreOptions M) :
  let middlewares := middlewaresOf name options in
  let persisted :=
    match opt_persist options with
    | Some persist => persist_enabled persist
    | None => false
    end in
  let inspected :=
    match opt_devtools options with
    | Some devtools => devtools_enabled devtools
    | None => false
    end in
  head middlewares = Some MwImmer ∧
  last middlewares = Some MwCreateVanillaStore ∧
  omap givenOf middlewares = default [] (opt_middlewares options) ∧
  take (S (length (default [] (opt_middlewares options)))) middlewares
    = MwImmer :: (MwGiven <$> default [] (opt_middlewares options)) ∧
  omap devtoolsNameOf middlewares = (if inspected then [Some name] else []) ∧
  omap persistNameOf middlewares =
    (if persisted
     then [Some (default name (opt_persist options ≫= persist_name))]
     else []) ∧
  length middlewares =
    2 + length (default [] (opt_middlewares options))
      + (if persisted then 1 else 0) + (if inspected then 1 else 0).
Proof.
  intros middlewares persisted inspected.
  subst middlewares persisted inspected. unfold middlewaresOf.
  destruct options as [given devtools persist].
  cbn [opt_middlewares opt_devtools opt_persist].
  generalize (default [] given). intros l.
  assert (Htake : forall rest : list (Middleware M),
    take (S (length l)) ((MwImmer :: (MwGiven <$> l)) ++ rest)
    = MwImmer :: (MwGiven <$> l)).
  { intros rest. rewrite take_app_length'; [done|]. simpl. by rewrite length_fmap. }
  destruct persist as [[[] pname]|], devtools as [[[] dname]|];
    cbn [persist_enabled devtools_enabled persist_name mbind option_bind];
    rewrite <- ?app_assoc;
    (split_and!;
      [ done
      | by rewrite ?app_comm_cons, ?app_assoc, last_snoc
      | rewrite ?app_comm_cons, !omap_app; csimpl;
        rewrite omap_givenOf_given; simpl; by rewrite ?app_nil_r
      | apply Htake
      | rewrite ?app_comm_cons, !omap_app; csimpl;
        rewrite omap_devtoolsNameOf_given; by simpl
      | rewrite ?app_comm_cons, !omap_app; csimpl;
        rewrite omap_persistNameOf_given; by simpl
      | rewrite ?app_comm_cons, !length_app; simpl; rewrite length_fmap; lia ]).
Qed.

(** ** The store over a number *)

Lemma jsAdd_past_safe : jsAdd (2 ^ 53) 1 = Some (2 ^ 53)%Z.
Proof. vm_compute. reflexivity. Qed.

Lemma rootBump_state store d st c e sum :
  env_inst e = globalInst ->
  store !! "set" = Some (MSet e) ->
  store !! "get" = Some (MGet e) ->
  stateOf st globalInst = Some (VNum c) ->
  jsAdd c d = Some sum ->
  exists st',
    rootBump store d st = Some st' ∧
    stateOf st' globalInst = Some (VNum sum).
Proof.
  intros Hinst Hset Hget Hstate Hsum. unfold rootBump, rootNum.
  rewrite Hset, Hget, Hinst, Hstate, Hsum.
  eexists. split; [done|]. unfold setState. rewrite Hinst.
  by eapply stateOf_setState_eq.
Qed.

Lemma rootCounter_step count w c (up : bool) sum :
  api w = api (rootCountStore count) ->
  stateOf (stores w) globalInst = Some (VNum c) ->
  jsAdd c (if up then 1 else -1) = Some sum ->
  exists st',
    callAction w (counterCall up) = Some (withStores w st') ∧
    stateOf st' globalInst = Some (VNum sum).
Proof.
  intros Hapi Hstate Hsum. unfold callAction. rewrite Hapi.
  set (w1 := computed rootDoubledCallback (createStore (VNum count) "rootCount")).
  set (store := assignMembers (api w1)
                  (computedBuilder rootDoubledCallback (api w1))).
  destruct up; cbn [counterCall fst snd].
  - change (api (rootCountStore count) !! "increment") with
      (Some (MFunction (fun _ st => rootBump store 1 st))).
    cbv beta.
    destruct (rootBump_state store 1 (stores w) c
                (mkEnv "rootCount" 0 (VNum count)) sum)
      as (st' & -> & Hst'); [reflexivity|reflexivity|reflexivity|done|done|].
    by exists st'.
  - change (api (rootCountStore count) !! "decrement") with
      (Some (MFunction (fun _ st => rootBump store (-1) st))).
    cbv beta.
    destruct (rootBump_state store (-1) (stores w) c
                (mkEnv "rootCount" 0 (VNum count)) sum)
      as (st' & -> & Hst'); [reflexivity|reflexivity|reflexivity|done|done|].
    by exists st'.
Qed.

Lemma rootCounter_state count steps :
  safeRun count steps = true ->
  exists w,
    callActions (rootCountStore count) (counterCall <$> steps) = Some w ∧
    stateOf (stores w) globalInst = Some (VNum (countAfter count steps)).
Proof.
  induction steps as [|up steps IH] using rev_ind; intros Hsafe.
  - by eexists.
  - apply safeRun_snoc in Hsafe as [Hsteps Hlast].
    destruct (IH Hsteps) as (w & Hw & Hstate).
    destruct (rootCounter_step count w (countAfter count steps) up
                (countAfter count (steps ++ [up])))
      as (st' & Hcall & Hst').
    + by apply api_callActions in Hw.
    + done.
    + rewrite countAfter_snoc in *. destruct up; by apply jsAdd_safe.
    + exists (withStores w st'). split; [|done].
      rewrite fmap_app. change (counterCall <$> [up]) with [counterCall up].
      by rewrite callActions_snoc, Hw.
Qed.

(** X9.  The store over a number of the tests, [store(0)] with [doubled]
    as [state.use() * 2] and actions that [set] the state to [get() + 1]
    and [get() - 1]: after any run of [increment] and [decrement] in which
    the counts stay safe integers, [get()] is the count reached and
    [doubled.get()] is twice that.  Past the safe integers the sums are
    rounded: from [2^53], [increment] leaves [2^53]. *)
Theorem root_counter_follows_its_actions (count : Z) (steps : list bool) :
  safeRun count steps = true ->
  (exists w,
     callActions (rootCountStore count) (counterCall <$> steps) = Some w ∧
     readAccessor "get" w = Some (VNum (countAfter count steps)) ∧
     readAccessor "doubled" w = Some (VNum (countAfter count steps * 2))) ∧
  (exists w,
     callAction (rootCountStore (2 ^ 53)) ("increment", VUndefined) = Some w ∧
     readAccessor "get" w = Some (VNum (2 ^ 53))).
Proof.
  intros Hsafe.
  assert (Hget : forall c w x,
    api w = api (rootCountStore c) ->
    stateOf (stores w) globalInst = Some x ->
    readAccessor "get" w = Some x).
  { intros c w x Hapi Hstate. unfold readAccessor. rewrite Hapi.
    change (api (rootCountStore c) !! "get")
      with (Some (MGet (mkEnv "rootCount" globalInst (VNum c)))).
    exact Hstate. }
  split.
  - destruct (rootCounter_state count steps Hsafe) as (w & Hw & Hstate).
    exists w. split; [done|]. apply safeRun_last in Hsafe.
    pose proof (api_callActions _ _ _ Hw) as Hapi. split.
    + by apply (Hget count).
    + unfold readAccessor. rewrite Hapi.
      change (api (rootCountStore count) !! "doubled")
        with (Some (MComputed (fun st =>
                match rootNum "use"
                  (api (computed rootDoubledCallback
                          (createStore (VNum count) "rootCount"))) st with
                | Some c => VNum <$> jsMul c 2
                | None => None
                end))).
      cbn [accessorGet]. unfold rootNum.
      change (api (computed rootDoubledCallback
                (createStore (VNum count) "rootCount")) !! "use")
        with (Some (MUse (mkEnv "rootCount" globalInst (VNum count)))).
      cbn [env_inst]. rewrite Hstate. by rewrite jsMul_two.
  - destruct (rootCounter_step (2 ^ 53) (rootCountStore (2 ^ 53)) (2 ^ 53) true
                (2 ^ 53)) as (st' & Hcall & Hst').
    + done.
    + done.
    + exact jsAdd_past_safe.
    + exists (withStores (rootCountStore (2 ^ 53)) st'). split; [exact Hcall|].
      by apply (Hget (2 ^ 53)%Z).
Qed.

Lemma root_counter_follows_its_actions_witness :
  safeRun 0 [true; true; false] = true ∧
  exists w,
    callActions (rootCountStore 0) (counterCall <$> [true; true; false]) = Some w ∧
    readAccessor "get" w = Some (VNum 1) ∧
    readAccessor "doubled" w = Some (VNum 2).
Proof.
  split; [reflexivity|].
  exact (proj1 (root_counter_follows_its_actions 0 [true; true; false] eq_refl)).
Defined.

(** ** The local store object *)




Lemma createInnerStore_surface_back name initialState0 merged st1 st2 k :
  (is_Some (getProp k merged) -> is_Some (getProp k initialState0)) ->
  is_Some ((createInnerStore name merged st1).2 !! k) ->
  is_Some ((createInnerStore name initialState0 st2).2 !! k).
Proof.
  intros Hprops. rewrite !createInnerStore_lookup.
  destruct (getProp k merged) as [v|] eqn:E.
  - intros _. destruct Hprops as [v' ->]; by eexists.
  - intros H. destruct (getProp k initialState0); [by eexists|].
    by eapply fixed_members.
Qed.

(** X12.  When every registered builder adds the same member names to
    whatever store it is applied to and removes none, and the local initial
    state has no property that the global initial state lacks, the global
    and the local store define the same names but for the factory's own:
    the names of the global store are those of the local store together
    with [extend], [LocalProvider] and [useLocalStore]. *)
Theorem local_and_global_surface_coincide
    (initialState0 : Value) (name : string) (ops : list Live.Op)
    (initialValue : option Value) (ctx : Context) :
  Forall Live.steady (Live.registered ops) ->
  (forall k, is_Some (getProp k (mergedInitialState initialState0 initialValue)) ->
     is_Some (getProp k initialState0)) ->
  let w := Live.run ops (Live.createStore initialState0 name) in
  exists localStore,
    useLocalStore (Live.LocalProvider initialValue ctx w).2 = inl localStore ∧
    dom (Live.api w) = dom localStore ∪ ownNames.
Proof.
  intros Hsteady Hprops w.
  assert (Hexts : Live.extensions w = Live.registered ops)
    by apply live_extensions_createStore.
  assert (Hname : Live.storeName w = name) by apply live_run_storeName.
  assert (Hinit : Live.initialState w = initialState0) by apply live_run_initialState.
  set (created := (createInnerStore name
    (mergedInitialState initialState0 initialValue) (Live.stores w)).2).
  set (st1 := (createVanillaStore (Live.stores w)
    (mergedInitialState initialState0 initialValue)).1).
  exists (Live.object
    (Live.applyExtensions (Live.localInst w) (Live.registered ops) created st1)).
  split.
  { unfold created, st1. rewrite <- Hexts, <- Hname, <- Hinit. done. }
  assert (Hsame : dom created = dom (createInnerStore name initialState0 noStores).2).
  { apply set_eq. intros k. rewrite !elem_of_dom. split.
    - apply createInnerStore_surface_back, Hprops.
    - apply createInnerStore_surface. }
  unfold w. rewrite live_dom_api, dom_api_createStore by done.
  rewrite live_dom_applyExtensions, Hsame by done.
  rewrite <- !(assoc_L (∪)). f_equal. apply (comm_L (∪)).
Qed.

Lemma local_and_global_surface_coincide_witness :
  let ops := [Live.OpExtend (Live.returning (computedBuilder doubledCallback));
              Live.OpExtend (Live.returning counterActions)] in
  let initial := VObj [("count", VNum 10)] in
  let given := Some (VObj [("count", VNum 5)]) in
  let w := Live.run ops (Live.createStore initial "countStore") in
  Forall Live.steady (Live.registered ops) ∧
  (forall k, is_Some (getProp k (mergedInitialState initial given)) ->
     is_Some (getProp k initial)) ∧
  exists localStore,
    useLocalStore (Live.LocalProvider given [] w).2 = inl localStore ∧
    dom (Live.api w) = dom localStore ∪ ownNames.
Proof.
  assert (Hsteady : Forall Live.steady
    (Live.registered
       [Live.OpExtend (Live.returning (computedBuilder doubledCallback));
        Live.OpExtend (Live.returning counterActions)])).
  { apply Forall_cons. split; [exact steady_computedBuilder_doubled|].
    apply Forall_cons. split; [exact steady_counterActions|]. apply Forall_nil_2. }
  assert (Hprops : forall k,
    is_Some (getProp k (mergedInitialState (VObj [("count", VNum 10)])
                          (Some (VObj [("count", VNum 5)])))) ->
    is_Some (getProp k (VObj [("count", VNum 10)]))).
  { intros k. cbn. destruct (decide (k = "count")); intros [v Hv]; [by eexists|done]. }
  split; [exact Hsteady|]. split; [exact Hprops|].
  exact (local_and_global_surface_coincide (VObj [("count", VNum 10)]) "countStore"
    [Live.OpExtend (Live.returning (computedBuilder doubledCallback));
     Live.OpExtend (Live.returning counterActions)]
    (Some (VObj [("count", VNum 5)])) [] Hsteady Hprops).
Defined.

(** ** Renders *)

Lemma live_provided_setters initialValue ctx w :
  Forall (Live.untouched ["set"; "assign"]) (Live.extensions w) ->
  getProp "set" (mergedInitialState (Live.initialState w) initialValue) = None ->
  getProp "assign" (mergedInitialState (Live.initialState w) initialValue) = None ->
  exists localStore,
    useLocalStore (Live.LocalProvider initialValue ctx w).2 = inl localStore ∧
    localStore !! "set" = Some (MSet (Live.localEnv initialValue w)) ∧
    localStore !! "assign" = Some (MAssign (Live.localEnv initialValue w)).
Proof.
  intros Huntouched Hset Hassign.
  exists (Live.object
    (Live.applyExtensions (Live.localInst w) (Live.extensions w)
       (createInnerStore (Live.storeName w)
          (mergedInitialState (Live.initialState w) initialValue) (Live.stores w)).2
       (createVanillaStore (Live.stores w)
          (mergedInitialState (Live.initialState w) initialValue)).1)).
  assert (Hin1 : "set" ∈ ["set"; "assign"]) by (by apply (bool_decide_unpack _)).
  assert (Hin2 : "assign" ∈ ["set"; "assign"]) by (by apply (bool_decide_unpack _)).
  split_and!.
  - done.
  - rewrite (live_untouched_applyExtensions ["set"; "assign"]) by done.
    rewrite createInnerStore_lookup, Hset. reflexivity.
  - rewrite (live_untouched_applyExtensions ["set"; "assign"]) by done.
    rewrite createInnerStore_lookup, Hassign. reflexivity.
Qed.

(** X5.  [LocalProvider] keeps no store between renders: each render makes
    an instance of its own.  When no state property is named [set] or
    [assign] and no registered builder touches the members of these names,
    the setters of the store provided by one render are bound to another
    instance than those of the store provided by a later render, and
    calling the setters of one leaves the state of the other as it is. *)
Theorem every_render_has_its_own_store
    (initialState0 : Value) (name : string) (ops ops' ops'' : list Live.Op)
    (initialValue1 initialValue2 : option Value) (ctx1 ctx2 : Context)
    (fnOrNewValue : SetArg) (state : Value) (actionName : option string) :
  Forall (Live.untouched ["set"; "assign"]) (Live.registered (ops ++ ops')) ->
  getProp "set" (mergedInitialState initialState0 initialValue1) = None ->
  getProp "assign" (mergedInitialState initialState0 initialValue1) = None ->
  getProp "set" (mergedInitialState initialState0 initialValue2) = None ->
  getProp "assign" (mergedInitialState initialState0 initialValue2) = None ->
  let w := Live.run ops (Live.createStore initialState0 name) in
  let first := Live.LocalProvider initialValue1 ctx1 w in
  let w1 := Live.run ops' first.1 in
  let second := Live.LocalProvider initialValue2 ctx2 w1 in
  let st := Live.stores (Live.run ops'' second.1) in
  exists store1 store2 e1 e2,
    useLocalStore first.2 = inl store1 ∧
    useLocalStore second.2 = inl store2 ∧
    store1 !! "set" = Some (MSet e1) ∧
    store1 !! "assign" = Some (MAssign e1) ∧
    store2 !! "set" = Some (MSet e2) ∧
    store2 !! "assign" = Some (MAssign e2) ∧
    env_inst e1 = Live.localInst w ∧
    env_inst e2 = Live.localInst w1 ∧
    env_inst e1 ≠ env_inst e2 ∧
    is_Some (stateOf st (env_inst e1)) ∧
    is_Some (stateOf st (env_inst e2)) ∧
    stateOf (setState e1 fnOrNewValue actionName st) (env_inst e2)
      = stateOf st (env_inst e2) ∧
    stateOf (assign e1 state actionName st) (env_inst e2)
      = stateOf st (env_inst e2) ∧
    stateOf (setState e2 fnOrNewValue actionName st) (env_inst e1)
      = stateOf st (env_inst e1) ∧
    stateOf (assign e2 state actionName st) (env_inst e1)
      = stateOf st (env_inst e1).
Proof.
  intros Huntouched Hset1 Hassign1 Hset2 Hassign2 w first w1 second st.
  rewrite live_registered_app in Huntouched.
  pose proof Huntouched as Hall. apply Forall_app in Huntouched as [Hops Hops'].
  assert (Hexts : Live.extensions w = Live.registered ops)
    by apply live_extensions_createStore.
  assert (Hinit : Live.initialState w = initialState0) by apply live_run_initialState.
  assert (Hexts1 : Live.extensions w1 = Live.registered ops ++ Live.registered ops').
  { unfold w1. rewrite live_run_extensions. by rewrite <- Hexts. }
  assert (Hinit1 : Live.initialState w1 = initialState0).
  { unfold w1. rewrite live_run_initialState. exact Hinit. }
  destruct (live_provided_setters initialValue1 ctx1 w)
    as (store1 & Huse1 & Hs1 & Ha1); [by rewrite Hexts|by rewrite Hinit..|].
  destruct (live_provided_setters initialValue2 ctx2 w1)
    as (store2 & Huse2 & Hs2 & Ha2); [by rewrite Hexts1|by rewrite Hinit1..|].
  exists store1, store2, (Live.localEnv initialValue1 w), (Live.localEnv initialValue2 w1).
  assert (Hw : sound (Live.stores w))
    by apply live_sound_run, live_sound_createStore.
  assert (Hw1 : sound (Live.stores w1)).
  { apply live_sound_run. unfold first. rewrite live_stores_LocalProvider.
    by apply live_sound_applyExtensions, sound_createVanillaStore. }
  assert (Hst : sound st).
  { apply live_sound_run. unfold second. rewrite live_stores_LocalProvider.
    by apply live_sound_applyExtensions, sound_createVanillaStore. }
  assert (Hfirst : Live.localInst w < Live.localInst w1).
  { unfold Live.localInst at 2. eapply Nat.lt_le_trans; [|apply live_length_run].
    unfold first. rewrite live_stores_LocalProvider, live_length_applyExtensions.
    simpl. rewrite length_app. simpl. unfold Live.localInst. lia. }
  assert (Hsecond : Live.localInst w1 < length (current st)).
  { eapply Nat.lt_le_trans; [|apply live_length_run]. unfold second.
    rewrite live_stores_LocalProvider, live_length_applyExtensions.
    simpl. rewrite length_app. simpl. unfold Live.localInst. lia. }
  assert (He1 : env_inst (Live.localEnv initialValue1 w) = Live.localInst w) by done.
  assert (He2 : env_inst (Live.localEnv initialValue2 w1) = Live.localInst w1) by done.
  destruct Hst as [Hheld Hpos].
  split_and!; try done.
  - rewrite He1, He2. lia.
  - apply held_stateOf; [done|]. rewrite He1. lia.
  - apply held_stateOf; [done|]. by rewrite He2.
  - apply stateOf_setState_ne; [done|]. rewrite He1, He2. lia.
  - apply stateOf_setState_ne; [done|]. rewrite He1, He2. lia.
  - apply stateOf_setState_ne; [done|]. rewrite He1, He2. lia.
  - apply stateOf_setState_ne; [done|]. rewrite He1, He2. lia.
Qed.

Lemma every_render_has_its_own_store_witness :
  let initial := VObj [("count", VNum 10)] in
  let ops := [Live.OpExtend (Live.returning counterActions)] in
  let w := Live.run ops (Live.createStore initial "countStore") in
  let first := Live.LocalProvider None [] w in
  let second := Live.LocalProvider None [] first.1 in
  Forall (Live.untouched ["set"; "assign"]) (Live.registered (ops ++ [])) ∧
  getProp "set" (mergedInitialState initial None) = None ∧
  getProp "assign" (mergedInitialState initial None) = None ∧
  exists store1 store2 e1 e2,
    useLocalStore first.2 = inl store1 ∧
    useLocalStore second.2 = inl store2 ∧
    store1 !! "set" = Some (MSet e1) ∧
    store2 !! "set" = Some (MSet e2) ∧
    env_inst e1 ≠ env_inst e2.
Proof.
  assert (H : Forall (Live.untouched ["set"; "assign"])
    (Live.registered ([Live.OpExtend (Live.returning counterActions)] ++ []))).
  { apply Forall_cons. split; [exact untouched_counterActions|]. apply Forall_nil_2. }
  split; [exact H|]. split; [reflexivity|]. split; [reflexivity|].
  destruct (every_render_has_its_own_store
    (VObj [("count", VNum 10)]) "countStore"
    [Live.OpExtend (Live.returning counterActions)] [] []
    None None [] [] (NewValue VNull) VNull None H eq_refl eq_refl eq_refl eq_refl)
    as (store1 & store2 & e1 & e2 & Huse1 & Huse2 & Hs1 & _ & Hs2 & _ & _ & _ & Hne & _).
  exists store1, store2, e1, e2.
  split; [exact Huse1|]. split; [exact Huse2|]. split; [exact Hs1|].
  split; [exact Hs2|exact Hne].
Defined.

(** ** What a render changes *)



